(** * gochunker: the relay / failover / rate-limit controller

    A shallow embedding of [gochunker.go] (package [main]): the
    token-bucket [RateLimiter], the [Controller] with its event buffer,
    the ingress reader [readEventsFromApp], the provider goroutine of
    [startWorker] and the wiring of [main].

    Every goroutine is a small program-counter machine; one step is one
    access to shared memory or one I/O call.  The scheduler and the
    outside world (what a read returns, whether a write or a dial
    succeeds, when the ticker fires) are the [Action]s of a run.  The two
    mutexes are held for a single memory access and never across I/O, so
    a critical section is one atomic step.  Memory is taken sequentially
    consistent (the unlocked [len(c.events)] of the drain loop reads the
    current length). *)

From Stdlib Require Import ZArith Lia String Ascii List Bool.
From stdpp Require Import base list strings.


(** ** Data model *)

(** The payload of one websocket message ([[]byte]). *)
Definition frame := string.

(** [type Event struct { ID string; Payload string }] *)
Record Event := mkEvent { ID : string; Payload : string }.

(** [var event Event]: the zero value. *)
Definition zeroEvent : Event := mkEvent "" "".

(** [time.Duration]: a count of nanoseconds. *)
Definition Duration := Z.
Definition Second : Duration := 1000000000%Z.
Definition Minute : Duration := (60 * Second)%Z.
Definition Hour : Duration := (60 * Minute)%Z.

(** ** RateLimiter *)

(** [type RateLimiter struct]; the mutex is the atomicity of [Allow] and
    [refill], the ticker is kept as its interval. *)
Record RateLimiter := mkRateLimiter {
  tokens : Z;
  maxAllowed : Z;
  ticker : Duration
}.

(** [func NewRateLimiter(max int, interval time.Duration) *RateLimiter].
    ([time.NewTicker] panics on a non-positive interval; the source does
    not test it and neither does this definition.) *)
Definition NewRateLimiter (max : Z) (interval : Duration) : RateLimiter :=
  {| tokens := max; maxAllowed := max; ticker := interval |}.

(** The body of the loop of [func (rl *RateLimiter) refill()]: what one
    tick of [rl.ticker.C] does. *)
Definition refill (rl : RateLimiter) : RateLimiter :=
  {| tokens := maxAllowed rl; maxAllowed := maxAllowed rl; ticker := ticker rl |}.

(** [func (rl *RateLimiter) Allow() bool]. The decrement is guarded by
    [tokens > 0], so it never leaves the range of [int]. *)
Definition Allow (rl : RateLimiter) : RateLimiter * bool :=
  if (0 <? tokens rl)%Z
  then ({| tokens := tokens rl - 1; maxAllowed := maxAllowed rl; ticker := ticker rl |}, true)
  else (rl, false).

(** A client of the limiter: calls to [Allow] and ticks of the refill
    goroutine, in the order in which they take the mutex. *)
Inductive LimiterOp := OpAllow | OpTick.

(** The limiter after [ops], and the answers of the [Allow] calls. *)
Fixpoint limiter_run (ops : list LimiterOp) (rl : RateLimiter) : RateLimiter * list bool :=
  match ops with
  | [] => (rl, [])
  | OpAllow :: ops' =>
      let '(rl1, b) := Allow rl in
      let '(rl2, bs) := limiter_run ops' rl1 in (rl2, b :: bs)
  | OpTick :: ops' => limiter_run ops' (refill rl)
  end.

(** The number of permits granted among some answers. *)
Definition grants (bs : list bool) : nat := length (filter (λ b, b = true) bs).

(** 64-bit two's complement [int]. *)
Definition int_min : Z := (-9223372036854775808)%Z.
Definition int_max : Z := 9223372036854775807%Z.
Definition int_wrap (z : Z) : Z := ((z - int_min) mod 18446744073709551616 + int_min)%Z.

(** ** encoding/json *)

(** The two errors [json.Unmarshal] returns on a struct target. *)
Inductive JsonError := SyntaxError | UnmarshalTypeError.

(** The interface of [encoding/json] that the controller uses.
    [Unmarshal msg v] is [json.Unmarshal(msg, &v)]: the value stored
    through the pointer and the error.  [Marshal] is [json.Marshal] on an
    [Event]; it has no error on a struct of two strings, and the caller
    drops the error. *)
Class JSON := {
  Unmarshal : frame → Event → Event * option JsonError;
  Marshal : Event → frame
}.

(** ** The controller and its goroutines *)

(** The two provider endpoints, [ws://provider/main] and
    [ws://provider/backup].  Each is dialled once, and the connection is
    handed to one [startWorker] call, so a provider also names its
    connection ([conn1], [conn2]) and the goroutine that writes to it. *)
Inductive Provider := Main | Backup.

Global Instance Provider_eq_dec : EqDecision Provider.
Proof. solve_decision. Defined.

(** Which of its two loops a worker is in when it writes. *)
Inductive Mode := Draining | PassThrough.

Global Instance Mode_eq_dec : EqDecision Mode.
Proof. solve_decision. Defined.

(** What a run does that can be seen from outside the controller or in its
    log; a step of a goroutine adds at most one of them to the trace. *)
Inductive Obs :=
| ObsIngress (k : nat) (conn : nat) (msg : frame)
    (* reader [k] got [msg] from [c.appConn.ReadMessage()]; [conn] is what
       [c.appConn] holds when the call returns *)
| ObsDial (p : Provider)
    (* [websocket.DefaultDialer.Dial] to [p] returned a connection *)
| ObsAllow (ws : Provider) (granted : bool)
    (* the worker on [ws] called [c.ratelimiter.Allow()] *)
| ObsSleep (ws : Provider) (d : Duration)
    (* ["rate-limited, sleeping..."] and [time.Sleep(d)] *)
| ObsWrite (ws : Provider) (m : Mode) (msg : frame) (ok : bool)
    (* [ws.WriteMessage(websocket.TextMessage, msg)]; [ok] iff [err == nil] *)
| ObsFinished (ws : Provider)
    (* ["Worker finished sending events"] *)
| ObsSignal (ws : Provider)
    (* [c.startBackup <- struct{}{}] went through *)
| ObsRelayRead (ws : Provider) (conn : nat) (msg : frame).
    (* the worker on [ws] got [msg] from [c.appConn.ReadMessage()]; [conn]
       is what [c.appConn] holds when the call returns *)

Global Instance Obs_eq_dec : EqDecision Obs.
Proof. solve_decision. Defined.

(** The goroutine of [readEventsFromApp]. *)
Inductive ReaderPc :=
| RRead                      (* at [c.appConn.ReadMessage()] *)
| RAppend (event : Event)    (* decoded; at [c.mu.Lock()] before the append *)
| RReturned.

(** The two anonymous goroutines of [main]. *)
Inductive SetupPc :=
| SWait                      (* at [<-controller.startBackup] *)
| SDial                      (* at [websocket.DefaultDialer.Dial] *)
| SDone.

(** The goroutine that [startWorker] starts. *)
Inductive WorkerPc :=
| WLoop (i : nat)                   (* at the test [i < len(c.events)] *)
| WFetch (i : nat)                  (* at [event := c.events[i]], under the lock *)
| WPermit (i : nat) (event : Event) (* at [!c.ratelimiter.Allow()] *)
| WSleep (i : nat) (event : Event)  (* denied: at [time.Sleep(1 * time.Minute)] *)
| WSend (i : nat) (event : Event)   (* at [json.Marshal] and [ws.WriteMessage] *)
| WTrigger                          (* at [c.startBackup <- struct{}{}] *)
| WRelayRead                        (* at [c.appConn.ReadMessage()] of the last loop *)
| WRelayWrite (msg : frame)         (* at [ws.WriteMessage(websocket.TextMessage, msg)] *)
| WReturned.

Global Instance WorkerPc_eq_dec : EqDecision WorkerPc.
Proof. unfold EqDecision, Decision. decide equality; try apply Nat.eq_dec;
  try apply string_dec; decide equality; apply string_dec. Defined.

(** The parameters of [startWorker] that its goroutine closes over (the
    connection [ws] is the key under which the worker is kept), and where
    the goroutine is. *)
Record Worker := mkWorker {
  label : string;
  triggerBackup : bool;
  pc : WorkerPc
}.

Definition at_pc (w : Worker) (pc' : WorkerPc) : Worker :=
  {| label := label w; triggerBackup := triggerBackup w; pc := pc' |}.

(** The [Controller] struct with the goroutines that share it.  The
    channel [startBackup] is unbuffered: it holds nothing, and a send on
    it goes through in one step with the receive of the goroutine at
    [SWait].  [c.mu] and [rl.mu] are the atomicity of the steps. *)
Record State := mkState {
  appConn : option nat;              (* [nil], or the latest app connection *)
  providerMain : option Provider;
  providerBackup : option Provider;
  events : list Event;
  ratelimiter : RateLimiter;
  readers : list ReaderPc;           (* one per [go c.readEventsFromApp()] *)
  setupMain : SetupPc;
  setupBackup : SetupPc;
  workerMain : option Worker;
  workerBackup : option Worker;
  exited : bool;                     (* [log.Fatal], a panic, or [main] returned *)
  trace : list Obs
}.

Definition set_appConn (c : option nat) (s : State) : State :=
  mkState c (providerMain s) (providerBackup s) (events s) (ratelimiter s) (readers s)
    (setupMain s) (setupBackup s) (workerMain s) (workerBackup s) (exited s) (trace s).
Definition set_providerMain (c : option Provider) (s : State) : State :=
  mkState (appConn s) c (providerBackup s) (events s) (ratelimiter s) (readers s)
    (setupMain s) (setupBackup s) (workerMain s) (workerBackup s) (exited s) (trace s).
Definition set_providerBackup (c : option Provider) (s : State) : State :=
  mkState (appConn s) (providerMain s) c (events s) (ratelimiter s) (readers s)
    (setupMain s) (setupBackup s) (workerMain s) (workerBackup s) (exited s) (trace s).
Definition set_events (l : list Event) (s : State) : State :=
  mkState (appConn s) (providerMain s) (providerBackup s) l (ratelimiter s) (readers s)
    (setupMain s) (setupBackup s) (workerMain s) (workerBackup s) (exited s) (trace s).
Definition set_ratelimiter (rl : RateLimiter) (s : State) : State :=
  mkState (appConn s) (providerMain s) (providerBackup s) (events s) rl (readers s)
    (setupMain s) (setupBackup s) (workerMain s) (workerBackup s) (exited s) (trace s).
Definition set_readers (l : list ReaderPc) (s : State) : State :=
  mkState (appConn s) (providerMain s) (providerBackup s) (events s) (ratelimiter s) l
    (setupMain s) (setupBackup s) (workerMain s) (workerBackup s) (exited s) (trace s).
Definition set_setupMain (q : SetupPc) (s : State) : State :=
  mkState (appConn s) (providerMain s) (providerBackup s) (events s) (ratelimiter s) (readers s)
    q (setupBackup s) (workerMain s) (workerBackup s) (exited s) (trace s).
Definition set_setupBackup (q : SetupPc) (s : State) : State :=
  mkState (appConn s) (providerMain s) (providerBackup s) (events s) (ratelimiter s) (readers s)
    (setupMain s) q (workerMain s) (workerBackup s) (exited s) (trace s).
Definition set_workerMain (w : option Worker) (s : State) : State :=
  mkState (appConn s) (providerMain s) (providerBackup s) (events s) (ratelimiter s) (readers s)
    (setupMain s) (setupBackup s) w (workerBackup s) (exited s) (trace s).
Definition set_workerBackup (w : option Worker) (s : State) : State :=
  mkState (appConn s) (providerMain s) (providerBackup s) (events s) (ratelimiter s) (readers s)
    (setupMain s) (setupBackup s) (workerMain s) w (exited s) (trace s).
Definition set_trace (t : list Obs) (s : State) : State :=
  mkState (appConn s) (providerMain s) (providerBackup s) (events s) (ratelimiter s) (readers s)
    (setupMain s) (setupBackup s) (workerMain s) (workerBackup s) (exited s) t.

(** [log.Fatal], a nil dereference or an index out of range: the process
    is gone, with every goroutine. *)
Definition crash (s : State) : State :=
  mkState (appConn s) (providerMain s) (providerBackup s) (events s) (ratelimiter s) (readers s)
    (setupMain s) (setupBackup s) (workerMain s) (workerBackup s) true (trace s).

Definition emit (o : Obs) (s : State) : State := set_trace (trace s ++ [o]) s.

Definition worker (ws : Provider) (s : State) : option Worker :=
  match ws with Main => workerMain s | Backup => workerBackup s end.

Definition set_worker (ws : Provider) (w : option Worker) (s : State) : State :=
  match ws with Main => set_workerMain w s | Backup => set_workerBackup w s end.

Definition set_reader (k : nat) (q : ReaderPc) (s : State) : State :=
  set_readers (<[k := q]> (readers s)) s.

Section Goroutines.
Context `{JSON}.

(** [NewController()] as [main] leaves it once its two goroutines are
    started: no connection yet, an empty buffer, the limiter of
    [NewRateLimiter(100, time.Hour)], the first goroutine about to dial
    the main provider and the second at [<-controller.startBackup]. *)
Definition main : State :=
  {| appConn := None; providerMain := None; providerBackup := None;
     events := [];
     ratelimiter := NewRateLimiter 100 Hour;
     readers := [];
     setupMain := SDial; setupBackup := SWait;
     workerMain := None; workerBackup := None;
     exited := false; trace := [] |}.

(** [func (c *Controller) handleAppConnection]: one call of the handler of
    ["/app/ws"].  The new connection overwrites [c.appConn], and a new
    reader goroutine is started; connections are numbered as they come. *)
Definition handleAppConnection (upgrade_ok : bool) (s : State) : State :=
  if upgrade_ok
  then set_readers (readers s ++ [RRead]) (set_appConn (Some (length (readers s))) s)
  else crash s.

(** One step of goroutine [k] of [func (c *Controller) readEventsFromApp].
    [rd] is what [ReadMessage] returns when the goroutine is at the read:
    [Some msg], or [None] for an error.  The call is one step, taken when
    it returns.  Go evaluates the receiver [c.appConn] when the call
    starts, so the frame comes from the connection the handle held then;
    the step looks at the handle for the nil check (the handle is never
    set back to nil) and records its value at the return in the
    observation, which is the connection read from only if no app has
    connected during the call.  Nothing below reads that number as the
    connection a frame came from. *)
Definition readEventsFromApp (k : nat) (rd : option frame) (s : State) : State :=
  match readers s !! k with
  | Some RRead =>
      match appConn s with
      | None => crash s
      | Some conn =>
          match rd with
          | None => set_reader k RReturned s
          | Some msg =>
              match Unmarshal msg zeroEvent with
              | (event, None) => set_reader k (RAppend event) (emit (ObsIngress k conn msg) s)
              | (_, Some _) => emit (ObsIngress k conn msg) s
              end
          end
      end
  | Some (RAppend event) => set_reader k RRead (set_events (events s ++ [event]) s)
  | Some RReturned | None => s
  end.

(** [func (c *Controller) startWorker(ws, label, triggerBackup)]: starts
    the goroutine, at [i := 0]. *)
Definition startWorker (ws : Provider) (label : string) (triggerBackup : bool)
    (s : State) : State :=
  set_worker ws (Some {| label := label; triggerBackup := triggerBackup; pc := WLoop 0 |}) s.

(** One step of the goroutine started by [startWorker] on [ws].  [rd] is
    the result of [ReadMessage] and [wr_ok] tells whether [WriteMessage]
    returns a nil error, when the step is that call.  As for the readers,
    the read of the last loop is one step, taken when the call returns,
    and the observation records what [c.appConn] holds then. *)
Definition worker_step (ws : Provider) (rd : option frame) (wr_ok : bool)
    (s : State) : State :=
  match worker ws s with
  | None => s
  | Some w =>
      let goto pc' s' := set_worker ws (Some (at_pc w pc')) s' in
      match pc w with
      | WLoop i =>
          if decide (i < length (events s))
          then goto (WFetch i) s
          else goto (if triggerBackup w then WTrigger else WRelayRead)
                    (emit (ObsFinished ws) s)
      | WFetch i =>
          match events s !! i with
          | Some event => goto (WPermit i event) s
          | None => crash s
          end
      | WPermit i event =>
          let '(rl, granted) := Allow (ratelimiter s) in
          goto (if granted then WSend i event else WSleep i event)
               (emit (ObsAllow ws granted) (set_ratelimiter rl s))
      | WSleep i event =>
          goto (WPermit i event) (emit (ObsSleep ws (1 * Minute)%Z) s)
      | WSend i event =>
          goto (if wr_ok then WLoop (S i) else WReturned)
               (emit (ObsWrite ws Draining (Marshal event) wr_ok) s)
      | WTrigger =>
          match setupBackup s with
          | SWait => goto WRelayRead (emit (ObsSignal ws) (set_setupBackup SDial s))
          | _ => s
          end
      | WRelayRead =>
          match appConn s with
          | None => crash s
          | Some conn =>
              match rd with
              | None => goto WReturned s
              | Some msg => goto (WRelayWrite msg) (emit (ObsRelayRead ws conn msg) s)
              end
          end
      | WRelayWrite msg =>
          goto (if wr_ok then WRelayRead else WReturned)
               (emit (ObsWrite ws PassThrough msg wr_ok) s)
      | WReturned => s
      end
  end.

(** The first goroutine of [main]: dial the main provider, then
    [controller.startWorker(conn1, "Main", true)]. *)
Definition main_provider (dial_ok : bool) (s : State) : State :=
  match setupMain s with
  | SDial =>
      if dial_ok
      then set_setupMain SDone
             (startWorker Main "Main" true
                (set_providerMain (Some Main) (emit (ObsDial Main) s)))
      else crash s
  | _ => s
  end.

(** The second goroutine of [main], once its receive on [startBackup] has
    gone through: dial the backup provider, then
    [controller.startWorker(conn2, "Backup", false)]. *)
Definition backup_provider (dial_ok : bool) (s : State) : State :=
  match setupBackup s with
  | SDial =>
      if dial_ok
      then set_setupBackup SDone
             (startWorker Backup "Backup" false
                (set_providerBackup (Some Backup) (emit (ObsDial Backup) s)))
      else crash s
  | _ => s
  end.

(** A tick of the limiter's ticker: the refill goroutine runs its body. *)
Definition tick (s : State) : State := set_ratelimiter (refill (ratelimiter s)) s.

(** What the scheduler and the outside world choose at each step. *)
Inductive Action :=
| ActUpgrade (upgrade_ok : bool)      (* a request on ["/app/ws"] *)
| ActTick
| ActReader (k : nat) (rd : option frame)
| ActDialMain (dial_ok : bool)
| ActDialBackup (dial_ok : bool)
| ActWorker (ws : Provider) (rd : option frame) (wr_ok : bool)
| ActServeReturn.                     (* [http.ListenAndServe] returns: [main] ends *)

Definition step (a : Action) (s : State) : State :=
  if exited s then s else
  match a with
  | ActUpgrade ok => handleAppConnection ok s
  | ActTick => tick s
  | ActReader k rd => readEventsFromApp k rd s
  | ActDialMain ok => main_provider ok s
  | ActDialBackup ok => backup_provider ok s
  | ActWorker ws rd wr_ok => worker_step ws rd wr_ok s
  | ActServeReturn => crash s
  end.

Fixpoint run (acts : list Action) (s : State) : State :=
  match acts with
  | [] => s
  | a :: acts' => run acts' (step a s)
  end.

End Goroutines.

(** ** Reading a trace *)

(** The worker an observation belongs to ([ObsDial] to the goroutine that
    starts it). *)
Definition obs_of (o : Obs) : option Provider :=
  match o with
  | ObsIngress _ _ _ => None
  | ObsDial p => Some p
  | ObsAllow ws _ | ObsSleep ws _ | ObsWrite ws _ _ _ | ObsFinished ws
  | ObsSignal ws | ObsRelayRead ws _ _ => Some ws
  end.

(** What the provider side of [ws] has done, in order. *)
Definition by_provider (ws : Provider) (tr : list Obs) : list Obs :=
  filter (λ o, obs_of o = Some ws) tr.

(** The frames the worker on [ws] has sent from the buffer. *)
Definition drained (ws : Provider) (tr : list Obs) : list frame :=
  omap (λ o, match o with
             | ObsWrite p Draining msg true => if decide (p = ws) then Some msg else None
             | _ => None
             end) tr.

(** The frames the reader goroutines have read from the app. *)
Definition ingress (tr : list Obs) : list frame :=
  omap (λ o, match o with ObsIngress _ _ msg => Some msg | _ => None end) tr.

(** The events the readers hold between a decode and its append. *)
Definition pending (rs : list ReaderPc) : list Event :=
  omap (λ q, match q with RAppend event => Some event | _ => None end) rs.

(** The event a frame decodes to, if [json.Unmarshal] has no error. *)
Definition decode `{JSON} (msg : frame) : option Event :=
  match Unmarshal msg zeroEvent with
  | (event, None) => Some event
  | (_, Some _) => None
  end.

Definition is_signal (o : Obs) : Prop := ∃ ws, o = ObsSignal ws.

(** Every observation of [tr] that satisfies [Q] has one that satisfies
    [P] before it. *)
Definition preceded (P Q : Obs → Prop) (tr : list Obs) : Prop :=
  ∀ pre o post, tr = pre ++ o :: post → Q o → ∃ o', o' ∈ pre ∧ P o'.

(** ** Two disciplines of a worker, as automata over its observations *)

(** Runs an automaton over a trace; [None] once a transition is refused. *)
Fixpoint monitor {Q : Type} (next : Q → Obs → option Q) (q : Q) (tr : list Obs) : option Q :=
  match tr with
  | [] => Some q
  | o :: tr' =>
      match next q o with
      | Some q' => monitor next q' tr'
      | None => None
      end
  end.

(** The permit discipline of the drain loop. *)
Inductive PermitState :=
| PIdle        (* no call to the limiter is open *)
| PDenied      (* the last call was denied *)
| PSlept       (* slept after a denial *)
| PGranted.    (* the last call was granted and its permit is unused *)

(** A drain write is taken only with an unused permit; a denial is
    followed by a sleep of one minute, and the sleep by another call to
    the limiter.  What other goroutines do is skipped. *)
Definition permit_next (ws : Provider) (q : PermitState) (o : Obs) : option PermitState :=
  if decide (obs_of o = Some ws) then
    match q with
    | PIdle =>
        match o with
        | ObsAllow _ granted => Some (if granted then PGranted else PDenied)
        | ObsWrite _ Draining _ _ | ObsSleep _ _ => None
        | _ => Some PIdle
        end
    | PDenied =>
        match o with
        | ObsSleep _ d => if decide (d = Minute) then Some PSlept else None
        | _ => None
        end
    | PSlept =>
        match o with
        | ObsAllow _ granted => Some (if granted then PGranted else PDenied)
        | _ => None
        end
    | PGranted =>
        match o with
        | ObsWrite _ Draining _ _ => Some PIdle
        | _ => None
        end
    end
  else Some q.

Definition permit_ok (ws : Provider) (tr : list Obs) : bool :=
  bool_decide (is_Some (monitor (permit_next ws) PIdle tr)).

(** The relay discipline of the last loop. *)
Inductive RelayState :=
| RBefore                 (* the drain loop is not over *)
| RIdle                   (* relaying, no frame in hand *)
| RHolding (msg : frame). (* relaying, [msg] read and not yet written *)

(** Once the drain loop is over the worker only reads a frame from the app
    and writes that same frame to its provider, one at a time: it does not
    call the limiter, sleep, or write from the buffer. *)
Definition relay_next (ws : Provider) (q : RelayState) (o : Obs) : option RelayState :=
  if decide (obs_of o = Some ws) then
    match q with
    | RBefore =>
        match o with
        | ObsFinished _ => Some RIdle
        | ObsDial _ | ObsAllow _ _ | ObsSleep _ _ | ObsWrite _ Draining _ _ => Some RBefore
        | _ => None
        end
    | RIdle =>
        match o with
        | ObsSignal _ => Some RIdle
        | ObsRelayRead _ _ msg => Some (RHolding msg)
        | _ => None
        end
    | RHolding msg =>
        match o with
        | ObsWrite _ PassThrough msg' _ => if decide (msg' = msg) then Some RIdle else None
        | _ => None
        end
    end
  else Some q.

Definition relay_ok (ws : Provider) (tr : list Obs) : bool :=
  bool_decide (is_Some (monitor (relay_next ws) RBefore tr)).

(** The workers that sent the signal, in order. *)
Definition signals (tr : list Obs) : list Provider :=
  omap (λ o, match o with ObsSignal ws => Some ws | _ => None end) tr.

(** ** Statements about the limiter *)

(** The invariant of the token bucket. *)
Definition limiter_inv (rl : RateLimiter) : Prop :=
  (0 ≤ tokens rl ≤ maxAllowed rl)%Z.

(** The answers of [n] calls to [Allow] with no tick between them, when
    [k] tokens are left: [k] grants, or [n] if fewer are asked. *)
Definition burst (n k : nat) : list bool :=
  repeat true (n `min` k) ++ repeat false (n - k).

(** ** Reading a program counter *)

(** The index [i] of the drain loop, while the worker is in it. *)
Definition loop_index (q : WorkerPc) : option nat :=
  match q with
  | WLoop i | WFetch i | WPermit i _ | WSleep i _ | WSend i _ => Some i
  | _ => None
  end.

(** The local [event] of the drain loop with the index it was read at. *)
Definition in_hand (q : WorkerPc) : option (nat * Event) :=
  match q with
  | WPermit i event | WSleep i event | WSend i event => Some (i, event)
  | _ => None
  end.

(** What a worker that has not left its drain loop can have done: the
    dial that started it, calls to the limiter, sleeps, and writes from
    the buffer that went through. *)
Definition drain_obs (o : Obs) : Prop :=
  match o with
  | ObsDial _ | ObsAllow _ _ | ObsSleep _ _ | ObsWrite _ Draining _ true => True
  | _ => False
  end.

(** What a worker does once it has left its drain loop: the signal, reads
    from the app and writes of what it read. *)
Definition relay_obs (o : Obs) : Prop :=
  match o with
  | ObsSignal _ | ObsRelayRead _ _ _ | ObsWrite _ PassThrough _ _ => True
  | _ => False
  end.

(** ** Invariants of a run *)

Section Invariants.
Context `{JSON}.

(** Who exists when, and with which parameters. *)
Record wiring_inv (s : State) : Prop := {
  wr_main_setup : setupMain s ≠ SWait;
  wr_main_none : setupMain s = SDial → workerMain s = None;
  wr_main_some : ∀ w, workerMain s = Some w →
                 setupMain s = SDone ∧ label w = "Main" ∧ triggerBackup w = true;
  wr_backup_none : setupBackup s ≠ SDone → workerBackup s = None;
  wr_backup_some : ∀ w, workerBackup s = Some w →
                   label w = "Backup" ∧ triggerBackup w = false ∧ pc w ≠ WTrigger
}.

(** What the drain loop has sent is the buffer up to its index, and the
    event in hand is the one at the index. *)
Record drain_inv (ws : Provider) (s : State) : Prop := {
  dr_none : worker ws s = None → by_provider ws (trace s) = [];
  dr_sent : drained ws (trace s)
            = map Marshal (take (length (drained ws (trace s))) (events s));
  dr_index : ∀ w i, worker ws s = Some w → loop_index (pc w) = Some i →
             length (drained ws (trace s)) = i;
  dr_fetch : ∀ w i, worker ws s = Some w → pc w = WFetch i → i < length (events s);
  dr_hand : ∀ w i e, worker ws s = Some w → in_hand (pc w) = Some (i, e) →
            events s !! i = Some e;
  dr_only : ∀ w i, worker ws s = Some w → loop_index (pc w) = Some i →
            Forall drain_obs (by_provider ws (trace s));
  dr_dialled : ∀ w, worker ws s = Some w →
               ∃ rest, by_provider ws (trace s) = ObsDial ws :: rest;
  dr_start : ∀ w, worker ws s = Some w → by_provider ws (trace s) = [ObsDial ws] →
             loop_index (pc w) = Some 0
}.

(** Where the permit automaton is, given where the worker is. *)
Definition permit_rel (q : PermitState) (w : option Worker) : Prop :=
  match pc <$> w with
  | Some (WPermit _ _) => q = PIdle ∨ q = PSlept
  | Some (WSleep _ _) => q = PDenied
  | Some (WSend _ _) => q = PGranted
  | _ => q = PIdle
  end.

Definition permit_inv (ws : Provider) (s : State) : Prop :=
  ∃ q, monitor (permit_next ws) PIdle (trace s) = Some q ∧ permit_rel q (worker ws s).

(** Where the relay automaton is, given where the worker is. *)
Definition relay_rel (q : RelayState) (w : option Worker) : Prop :=
  match pc <$> w with
  | Some (WTrigger | WRelayRead) => q = RIdle
  | Some (WRelayWrite msg) => q = RHolding msg
  | Some WReturned => q = RBefore ∨ q = RIdle
  | _ => q = RBefore
  end.

Definition relay_inv (ws : Provider) (s : State) : Prop :=
  ∃ q, monitor (relay_next ws) RBefore (trace s) = Some q ∧ relay_rel q (worker ws s).

(** The signal is sent at most once, by the main worker after it has
    finished its drain loop, and the backup side does nothing before. *)
Record failover_inv (s : State) : Prop := {
  fo_none : setupBackup s = SWait → signals (trace s) = [];
  fo_once : setupBackup s ≠ SWait → signals (trace s) = [Main];
  fo_trigger : ∀ w, workerMain s = Some w → pc w = WTrigger →
               ObsFinished Main ∈ trace s;
  fo_finished : preceded (λ o, o = ObsFinished Main) is_signal (trace s);
  fo_backup : preceded is_signal (λ o, obs_of o = Some Backup) (trace s)
}.

(** Every frame that decoded is in the buffer or about to be appended, and
    nothing else is. *)
Definition ingress_inv (s : State) : Prop :=
  events s ++ pending (readers s) ≡ₚ omap decode (ingress (trace s)).

(** All of them together. *)
Record reach_inv (s : State) : Prop := {
  ri_wiring : wiring_inv s;
  ri_drain : ∀ ws, drain_inv ws s;
  ri_permit : ∀ ws, permit_inv ws s;
  ri_relay : ∀ ws, relay_inv ws s;
  ri_failover : failover_inv s;
  ri_ingress : ingress_inv s
}.

(** Two observations of one worker that follow each other, under the
    permit discipline. *)
Definition permit_pair (ws : Provider) (a b : Obs) : Prop :=
  (∀ msg ok, b = ObsWrite ws Draining msg ok → a = ObsAllow ws true) ∧
  (a = ObsAllow ws false → b = ObsSleep ws Minute) ∧
  (∀ d, a = ObsSleep ws d → ∃ granted, b = ObsAllow ws granted).

End Invariants.

(** ** A model of [encoding/json] for [Event]

    [encoding/json] is a library of the Go distribution, not code of this
    repository.  [GoJson] follows its documented behaviour (Go 1.21) on
    the one target type the controller uses: [json.Unmarshal] first checks
    that the input is one JSON value (a [SyntaxError] otherwise, with
    nothing stored), then stores it into the struct; [json.Marshal] writes
    the two fields in order with HTML escaping on.  The scanner's limit
    on the nesting depth is kept: an array or object inside more than
    [maxNestingDepth] (10000) open arrays and objects, itself counted, is
    a [SyntaxError]. *)
Module GoJson.

Definition byte := ascii.
Definition code (c : byte) : N := N_of_ascii c.
Definition chr (n : N) : byte := ascii_of_N n.

Definition between (lo hi : N) (c : byte) : bool :=
  ((lo <=? code c) && (code c <=? hi))%N.

Definition is_ws (c : byte) : bool :=
  (code c =? 32)%N || (code c =? 9)%N || (code c =? 10)%N || (code c =? 13)%N.

Definition is_digit (c : byte) : bool := between 48 57 c.

Fixpoint skip_ws (s : list byte) : list byte :=
  match s with
  | c :: r => if is_ws c then skip_ws r else s
  | [] => []
  end.

(** *** UTF-8 *)

Definition is_cont (c : byte) : bool := between 128 191 c.

(** The length of the well-formed UTF-8 sequence at the head of [s], as
    [utf8.DecodeRune] sees it; [None] where it returns [RuneError, 1]. *)
Definition utf8_len (s : list byte) : option nat :=
  match s with
  | [] => None
  | c0 :: r =>
      if (code c0 <? 128)%N then Some 1
      else if between 194 223 c0 then
        match r with c1 :: _ => if is_cont c1 then Some 2 else None | _ => None end
      else if between 224 239 c0 then
        match r with
        | c1 :: c2 :: _ =>
            let lo := if (code c0 =? 224)%N then 160%N else 128%N in
            let hi := if (code c0 =? 237)%N then 159%N else 191%N in
            if between lo hi c1 && is_cont c2 then Some 3 else None
        | _ => None
        end
      else if between 240 244 c0 then
        match r with
        | c1 :: c2 :: c3 :: _ =>
            let lo := if (code c0 =? 240)%N then 144%N else 128%N in
            let hi := if (code c0 =? 244)%N then 143%N else 191%N in
            if between lo hi c1 && is_cont c2 && is_cont c3 then Some 4 else None
        | _ => None
        end
      else None
  end.

(** [unicode.ReplacementChar], U+FFFD, in UTF-8. *)
Definition replacement : list byte := [chr 239; chr 191; chr 189].

(** [utf8.EncodeRune]. *)
Definition encode_rune (r : N) : list byte :=
  if (r <? 128)%N then [chr r]
  else if (r <? 2048)%N then [chr (192 + r / 64); chr (128 + r mod 64)]
  else if ((55296 <=? r) && (r <? 57344))%N then replacement
  else if (r <? 65536)%N then
    [chr (224 + r / 4096); chr (128 + (r / 64) mod 64); chr (128 + r mod 64)]
  else if (r <? 1114112)%N then
    [chr (240 + r / 262144); chr (128 + (r / 4096) mod 64);
     chr (128 + (r / 64) mod 64); chr (128 + r mod 64)]
  else replacement.

Definition hex_val (c : byte) : option N :=
  if between 48 57 c then Some (code c - 48)%N
  else if between 97 102 c then Some (code c - 87)%N
  else if between 65 70 c then Some (code c - 55)%N
  else None.

(** [getu4]: the rune of a [\uXXXX] at the head of [s]. *)
Definition getu4 (s : list byte) : option N :=
  match s with
  | b :: u :: h1 :: h2 :: h3 :: h4 :: _ =>
      if (code b =? 92)%N && (code u =? 117)%N then
        match hex_val h1, hex_val h2, hex_val h3, hex_val h4 with
        | Some a, Some b, Some c, Some d => Some (((a * 16 + b) * 16 + c) * 16 + d)%N
        | _, _, _, _ => None
        end
      else None
  | _ => None
  end.

Definition is_surrogate (r : N) : bool := ((55296 <=? r) && (r <? 57344))%N.

(** [utf16.DecodeRune]; [None] for [unicode.ReplacementChar]. *)
Definition decode_pair (r1 r2 : N) : option N :=
  if ((55296 <=? r1) && (r1 <? 56320) && (56320 <=? r2) && (r2 <? 57344))%N
  then Some ((r1 - 55296) * 1024 + (r2 - 56320) + 65536)%N
  else None.

(** *** Strings *)

(** The rest of a string literal after its opening quote: the text it
    denotes ([unquote]) and what follows the closing quote.  [None] where
    the scanner rejects the literal. *)
Fixpoint parse_string (fuel : nat) (s : list byte) : option (list byte * list byte) :=
  match fuel with
  | 0 => None
  | S fuel' =>
      match s with
      | [] => None
      | c :: r =>
          if (code c =? 34)%N then Some ([], r)
          else if (code c <? 32)%N then None
          else if (code c =? 92)%N then
            match r with
            | [] => None
            | e :: r' =>
                let simple (b : N) :=
                  match parse_string fuel' r' with
                  | Some (t, rest) => Some (chr b :: t, rest)
                  | None => None
                  end in
                if (code e =? 34)%N then simple 34%N
                else if (code e =? 92)%N then simple 92%N
                else if (code e =? 47)%N then simple 47%N
                else if (code e =? 98)%N then simple 8%N
                else if (code e =? 102)%N then simple 12%N
                else if (code e =? 110)%N then simple 10%N
                else if (code e =? 114)%N then simple 13%N
                else if (code e =? 116)%N then simple 9%N
                else if (code e =? 117)%N then
                  match getu4 s with
                  | None => None
                  | Some rr =>
                      let after := drop 6 s in
                      let pair := if is_surrogate rr
                                  then match getu4 after with
                                       | Some rr1 => decode_pair rr rr1
                                       | None => None
                                       end
                                  else None in
                      match pair with
                      | Some dec =>
                          match parse_string fuel' (drop 6 after) with
                          | Some (t, rest) => Some (encode_rune dec ++ t, rest)
                          | None => None
                          end
                      | None =>
                          match parse_string fuel' after with
                          | Some (t, rest) => Some (encode_rune rr ++ t, rest)
                          | None => None
                          end
                      end
                  end
                else None
            end
          else if (code c <? 128)%N then
            match parse_string fuel' r with
            | Some (t, rest) => Some (c :: t, rest)
            | None => None
            end
          else
            match utf8_len s with
            | Some n =>
                match parse_string fuel' (drop n s) with
                | Some (t, rest) => Some (take n s ++ t, rest)
                | None => None
                end
            | None =>
                match parse_string fuel' r with
                | Some (t, rest) => Some (replacement ++ t, rest)
                | None => None
                end
            end
      end
  end.

(** *** Numbers *)

Fixpoint skip_digits (s : list byte) : list byte :=
  match s with
  | c :: r => if is_digit c then skip_digits r else s
  | [] => []
  end.

(** One or more digits. *)
Definition digits1 (s : list byte) : option (list byte) :=
  match s with
  | c :: r => if is_digit c then Some (skip_digits r) else None
  | [] => None
  end.

(** What follows a number literal at the head of [s]: an optional minus,
    then a zero or a digit from 1 to 9 with any digits, then an optional
    fraction (a dot and digits) and an optional exponent ([e] or [E], an
    optional sign, digits). *)
Definition parse_number (s : list byte) : option (list byte) :=
  let s1 := match s with
            | c :: r => if (code c =? 45)%N then r else s
            | [] => s
            end in
  let int_part := match s1 with
                  | c :: r =>
                      if (code c =? 48)%N then Some r
                      else if between 49 57 c then Some (skip_digits r)
                      else None
                  | [] => None
                  end in
  match int_part with
  | None => None
  | Some s2 =>
      let frac := match s2 with
                  | c :: r => if (code c =? 46)%N then digits1 r else Some s2
                  | [] => Some s2
                  end in
      match frac with
      | None => None
      | Some s3 =>
          match s3 with
          | c :: r =>
              if (code c =? 101)%N || (code c =? 69)%N then
                match r with
                | d :: r' =>
                    if (code d =? 43)%N || (code d =? 45)%N then digits1 r' else digits1 r
                | [] => None
                end
              else Some s3
          | [] => Some s3
          end
      end
  end.

(** *** Values *)

#[warnings="-register-all"]
Inductive Value :=
| VNull
| VBool (b : bool)
| VNumber
| VString (s : list byte)
| VArray (elems : list Value)
| VObject (members : list (list byte * Value)).

Definition starts_with (p s : list byte) : option (list byte) :=
  if decide (take (length p) s = p) then Some (drop (length p) s) else None.

Definition bytes (s : string) : list byte := list_ascii_of_string s.

(** [maxNestingDepth] of the scanner. *)
Definition maxNestingDepth : N := 10000.

(** One JSON value at the head of [s], after white space, inside [depth]
    open arrays and objects. *)
Fixpoint parse_value (fuel : nat) (depth : N) (s : list byte)
    : option (Value * list byte) :=
  match fuel with
  | 0 => None
  | S fuel' =>
      let s := skip_ws s in
      match s with
      | [] => None
      | c :: r =>
          if (code c =? 34)%N then
            match parse_string (length r) r with
            | Some (t, rest) => Some (VString t, rest)
            | None => None
            end
          else if ((code c =? 123) || (code c =? 91))%N
                  && (maxNestingDepth <? depth + 1)%N then None
          else if (code c =? 123)%N then
            match skip_ws r with
            | c' :: r' =>
                if (code c' =? 125)%N then Some (VObject [], r')
                else match parse_members fuel' (depth + 1)%N r with
                     | Some (ms, rest) => Some (VObject ms, rest)
                     | None => None
                     end
            | [] => None
            end
          else if (code c =? 91)%N then
            match skip_ws r with
            | c' :: r' =>
                if (code c' =? 93)%N then Some (VArray [], r')
                else match parse_elems fuel' (depth + 1)%N r with
                     | Some (vs, rest) => Some (VArray vs, rest)
                     | None => None
                     end
            | [] => None
            end
          else if (code c =? 45)%N || is_digit c then
            match parse_number s with
            | Some rest => Some (VNumber, rest)
            | None => None
            end
          else
            match starts_with (bytes "null") s, starts_with (bytes "true") s,
                  starts_with (bytes "false") s with
            | Some rest, _, _ => Some (VNull, rest)
            | _, Some rest, _ => Some (VBool true, rest)
            | _, _, Some rest => Some (VBool false, rest)
            | _, _, _ => None
            end
      end
  end
with parse_elems (fuel : nat) (depth : N) (s : list byte)
    : option (list Value * list byte) :=
  match fuel with
  | 0 => None
  | S fuel' =>
      match parse_value fuel' depth s with
      | Some (v, r) =>
          match skip_ws r with
          | c :: r' =>
              if (code c =? 44)%N then
                match parse_elems fuel' depth r' with
                | Some (vs, rest) => Some (v :: vs, rest)
                | None => None
                end
              else if (code c =? 93)%N then Some ([v], r')
              else None
          | [] => None
          end
      | None => None
      end
  end
with parse_members (fuel : nat) (depth : N) (s : list byte)
    : option (list (list byte * Value) * list byte) :=
  match fuel with
  | 0 => None
  | S fuel' =>
      match skip_ws s with
      | q :: r =>
          if (code q =? 34)%N then
            match parse_string (length r) r with
            | Some (key, r1) =>
                match skip_ws r1 with
                | c :: r2 =>
                    if (code c =? 58)%N then
                      match parse_value fuel' depth r2 with
                      | Some (v, r3) =>
                          match skip_ws r3 with
                          | c' :: r4 =>
                              if (code c' =? 44)%N then
                                match parse_members fuel' depth r4 with
                                | Some (ms, rest) => Some ((key, v) :: ms, rest)
                                | None => None
                                end
                              else if (code c' =? 125)%N then Some ([(key, v)], r4)
                              else None
                          | [] => None
                          end
                      | None => None
                      end
                    else None
                | [] => None
                end
            | None => None
            end
          else None
      | [] => None
      end
  end.

(** [checkValid]: the whole input is one value between white space. *)
Definition parse (s : list byte) : option Value :=
  match parse_value (2 * length s + 2) 0 s with
  | Some (v, rest) => match skip_ws rest with [] => Some v | _ => None end
  | None => None
  end.

(** *** Unmarshal into [Event] *)

Definition upper (c : byte) : byte :=
  if between 97 122 c then chr (code c - 32) else c.

(** The field of [Event] a key names: the tag [id] or [payload], exactly
    or under case folding.  (No rune outside ASCII folds to a letter of
    these two names.) *)
Inductive Field := FID | FPayload.

Definition field_of (key : list byte) : option Field :=
  if decide (map upper key = bytes "ID") then Some FID
  else if decide (map upper key = bytes "PAYLOAD") then Some FPayload
  else None.

Definition text (s : list byte) : string := string_of_list_ascii s.

(** Storing a value into a [string] field: a string is stored, [null]
    changes nothing, anything else is an [UnmarshalTypeError] and decoding
    goes on. *)
Definition store (f : Field) (v : Value) (ev : Event) : Event * option JsonError :=
  match v with
  | VString s =>
      (match f with
       | FID => mkEvent (text s) (Payload ev)
       | FPayload => mkEvent (ID ev) (text s)
       end, None)
  | VNull => (ev, None)
  | _ => (ev, Some UnmarshalTypeError)
  end.

(** The members of an object in order; the first error is the one kept. *)
Fixpoint store_members (ms : list (list byte * Value)) (ev : Event)
    : Event * option JsonError :=
  match ms with
  | [] => (ev, None)
  | (key, v) :: ms' =>
      match field_of key with
      | Some f =>
          let '(ev1, e1) := store f v ev in
          let '(ev2, e2) := store_members ms' ev1 in
          (ev2, match e1 with Some e => Some e | None => e2 end)
      | None => store_members ms' ev
      end
  end.

Definition unmarshal (msg : frame) (ev : Event) : Event * option JsonError :=
  match parse (bytes msg) with
  | None => (ev, Some SyntaxError)
  | Some VNull => (ev, None)
  | Some (VObject ms) => store_members ms ev
  | Some _ => (ev, Some UnmarshalTypeError)
  end.

(** *** Marshal of [Event] *)

Definition hex_digit (n : N) : byte :=
  if (n <? 10)%N then chr (48 + n) else chr (87 + n).

(** The body of a string literal as the encoder writes it, with HTML
    escaping. *)
Fixpoint quote_body (fuel : nat) (s : list byte) : list byte :=
  match fuel with
  | 0 => []
  | S fuel' =>
      match s with
      | [] => []
      | c :: r =>
          if (code c <? 128)%N then
            (if (code c =? 92)%N || (code c =? 34)%N then [chr 92; c]
             else if (code c =? 10)%N then bytes "\n"
             else if (code c =? 13)%N then bytes "\r"
             else if (code c =? 9)%N then bytes "\t"
             else if (code c <? 32)%N || (code c =? 60)%N || (code c =? 62)%N
                     || (code c =? 38)%N
             then bytes "\u00" ++ [hex_digit (code c / 16); hex_digit (code c mod 16)]
             else [c]) ++ quote_body fuel' r
          else
            match utf8_len s with
            | None => bytes "\ufffd" ++ quote_body fuel' r
            | Some n =>
                if decide (take n s = [chr 226; chr 128; chr 168])
                then bytes "\u2028" ++ quote_body fuel' (drop n s)
                else if decide (take n s = [chr 226; chr 128; chr 169])
                then bytes "\u2029" ++ quote_body fuel' (drop n s)
                else take n s ++ quote_body fuel' (drop n s)
            end
      end
  end.

Definition quote (s : string) : list byte :=
  [chr 34] ++ quote_body (String.length s) (bytes s) ++ [chr 34].

Definition marshal (ev : Event) : frame :=
  text (bytes "{" ++ [chr 34] ++ bytes "id" ++ [chr 34] ++ bytes ":" ++ quote (ID ev)
        ++ bytes "," ++ [chr 34] ++ bytes "payload" ++ [chr 34] ++ bytes ":"
        ++ quote (Payload ev) ++ bytes "}").

End GoJson.

Global Instance GoJson_JSON : JSON :=
  {| Unmarshal := GoJson.unmarshal; Marshal := GoJson.marshal |}.

(** ** A run of the default wiring, with [GoJson]

    The app connects and sends one event; the main provider is dialled,
    its worker drains the event, finishes and signals; the backup provider
    is dialled and its worker drains the same event. *)
Module Scenario.

Definition event1 : Event := mkEvent "1" "a".
Definition frame1 : frame := Eval vm_compute in GoJson.marshal event1.

Definition worker_steps (ws : Provider) (n : nat) : list Action :=
  repeat (ActWorker ws None true) n.

(** Up to the main worker back at its loop test, the event sent. *)
Definition main_drained : list Action :=
  [ActUpgrade true; ActReader 0 (Some frame1); ActReader 0 None; ActDialMain true]
  ++ worker_steps Main 4.

(** Then the main worker finishes and signals, and the backup is dialled. *)
Definition backup_dialled : list Action :=
  main_drained ++ worker_steps Main 2 ++ [ActDialBackup true].

(** Then the backup worker drains. *)
Definition both_drained : list Action :=
  backup_dialled ++ worker_steps Backup 4.

(** Then the backup worker finishes: it is at the read of its last loop. *)
Definition backup_relaying : list Action :=
  both_drained ++ [ActWorker Backup None true].

(** The app sends 101 events before the main provider is dialled, and
    the main worker then runs for 400 steps: it has used the 100 tokens
    and is at its loop test for the last event. *)
Definition limiter_exhausted : list Action :=
  [ActUpgrade true]
  ++ concat (repeat [ActReader 0 (Some frame1); ActReader 0 None] 101)
  ++ [ActDialMain true] ++ worker_steps Main 400.

(** Then the worker asks for a permit for the last event and is denied:
    it is about to sleep. *)
Definition limiter_denied : list Action := limiter_exhausted ++ worker_steps Main 3.


(** Three events are buffered, then the main provider is dialled: its
    worker is at its first loop test. *)
Definition event2 : Event := mkEvent "2" "b".
Definition event3 : Event := mkEvent "3" "c".
Definition frame2 : frame := Eval vm_compute in GoJson.marshal event2.
Definition frame3 : frame := Eval vm_compute in GoJson.marshal event3.

Definition three_buffered : list Action :=
  [ActUpgrade true;
   ActReader 0 (Some frame1); ActReader 0 None;
   ActReader 0 (Some frame2); ActReader 0 None;
   ActReader 0 (Some frame3); ActReader 0 None;
   ActDialMain true].

(** The reader of a first app has read [frame1] and not yet appended its
    event when a second app connects; the reader of the second app reads
    [frame2] and appends; then the first reader appends.  The main worker
    then drains the two events. *)
Definition two_apps : list Action :=
  [ActUpgrade true; ActReader 0 (Some frame1);
   ActUpgrade true; ActReader 1 (Some frame2); ActReader 1 None;
   ActReader 0 None;
   ActDialMain true] ++ worker_steps Main 8.

(** The main provider is dialled and its worker runs before any app
    connects: it is at the read of its relay loop. *)
Definition no_app : list Action := [ActDialMain true] ++ worker_steps Main 2.

(** Frames for the decoder, written without a quote inside a literal. *)
Definition dq : string := String (ascii_of_nat 34) EmptyString.
Definition quoted (s : string) : string := dq +:+ s +:+ dq.

(** An object with [id] only, with [payload] only, and with both and a
    field the struct does not have. *)
Definition only_id : frame := "{" +:+ quoted "id" +:+ ":" +:+ quoted "7" +:+ "}".
Definition only_payload : frame := "{" +:+ quoted "payload" +:+ ":" +:+ quoted "x" +:+ "}".
Definition with_extra : frame :=
  "{" +:+ quoted "id" +:+ ":" +:+ quoted "7" +:+ "," +:+ quoted "extra" +:+ ":[1,true],"
  +:+ quoted "payload" +:+ ":" +:+ quoted "x" +:+ "}".

(** An object whose field [x] holds [n] arrays, one inside the other. *)
Definition nested (n : N) : frame :=
  "{" +:+ quoted "id" +:+ ":" +:+ quoted "deep" +:+ "," +:+ quoted "x" +:+ ":"
  +:+ string_of_list_ascii (repeat "["%char (N.to_nat n) ++ repeat "]"%char (N.to_nat n))
  +:+ "}".

End Scenario.

(** ** Counting over a run *)

Global Instance Action_eq_dec : EqDecision Action.
Proof. solve_decision. Defined.

(** The ticks of the limiter among some actions. *)
Definition ticks (acts : list Action) : nat :=
  length (filter (λ a, a = ActTick) acts).

(** The permits granted to the worker on [ws]. *)
Definition grants_by (ws : Provider) (tr : list Obs) : nat :=
  length (omap (λ o, match o with
                     | ObsAllow p true => if decide (p = ws) then Some o else None
                     | _ => None
                     end) tr).

(** The dials to [p] that returned a connection. *)
Definition dials (p : Provider) (tr : list Obs) : nat :=
  length (filter (λ o, o = ObsDial p) tr).

(** The actions that end at a [log.Fatal], or at the return of [main]:
    a failed upgrade, a failed dial by a goroutine that is at its dial,
    and the return of [http.ListenAndServe]. *)
Definition fatal (a : Action) (s : State) : bool :=
  match a with
  | ActUpgrade ok => negb ok
  | ActDialMain ok =>
      negb ok && match setupMain s with SDial => true | _ => false end
  | ActDialBackup ok =>
      negb ok && match setupBackup s with SDial => true | _ => false end
  | ActServeReturn => true
  | _ => false
  end.

(** No step of a [readEventsFromApp] goroutine among [acts]. *)
Definition reader_free (acts : list Action) : bool :=
  forallb (λ a, match a with ActReader _ _ => false | _ => true end) acts.

(** The dials a goroutine of [main] has made when it is at [pc]. *)
Definition dialled (pc : SetupPc) : nat :=
  match pc with SDone => 1 | _ => 0 end.

(** Where a worker is while the signal cannot have been sent. *)
Definition before_signal (q : WorkerPc) : bool :=
  match q with
  | WLoop _ | WFetch _ | WPermit _ _ | WSleep _ _ | WSend _ _ | WTrigger => true
  | _ => false
  end.

Section ExtraInvariants.
Context `{JSON}.

(** The second goroutine of [main] waits for as long as the main worker
    has not sent the signal. *)
Definition waiting_inv (s : State) : Prop :=
  match workerMain s with
  | None => setupBackup s = SWait
  | Some w => before_signal (pc w) = true → setupBackup s = SWait
  end.

(** The limiter of the controller, and what each worker did with the
    permits it got: a write from the buffer uses one up. *)
Record budget_inv (s : State) : Prop := {
  bu_limiter : (0 ≤ tokens (ratelimiter s) ≤ 100)%Z ∧ maxAllowed (ratelimiter s) = 100%Z;
  bu_worker : ∀ ws,
    length (drained ws (trace s))
    + match worker ws s with
      | Some w => match pc w with WSend _ _ => 1 | _ => 0 end
      | None => 0
      end
    ≤ grants_by ws (trace s)
}.

(** The app connection and its readers: the handle is the latest
    connection, one reader was started for each connection, and with one
    reader the buffer keeps the order of arrival. *)
Record conn_inv (s : State) : Prop := {
  ci_nil : appConn s = None → readers s = [];
  ci_conn : ∀ conn, appConn s = Some conn → S conn = length (readers s);
  ci_empty : readers s = [] → events s = [];
  ci_order : length (readers s) ≤ 1 →
             events s ++ pending (readers s) = omap decode (ingress (trace s))
}.

(** A provider has been dialled iff its goroutine of [main] is done. *)
Definition dial_inv (s : State) : Prop :=
  dials Main (trace s) = dialled (setupMain s) ∧
  dials Backup (trace s) = dialled (setupBackup s).

End ExtraInvariants.

(** * Proofs *)

(** ** The limiter *)

Lemma Allow_granted rl :
  (0 < tokens rl)%Z →
  Allow rl = ({| tokens := tokens rl - 1; maxAllowed := maxAllowed rl; ticker := ticker rl |}, true).
Proof. intros Hpos. unfold Allow. by rewrite (proj2 (Z.ltb_lt _ _) Hpos). Qed.

Lemma Allow_denied rl : (tokens rl ≤ 0)%Z → Allow rl = (rl, false).
Proof. intros Hle. unfold Allow. by rewrite (proj2 (Z.ltb_ge _ _) Hle). Qed.

(** On an [int] the guarded decrement is the machine's: it cannot wrap. *)
Lemma Allow_no_wrap rl :
  (int_min ≤ tokens rl ≤ int_max)%Z →
  tokens (Allow rl).1 = if (Allow rl).2 then int_wrap (tokens rl - 1) else tokens rl.
Proof.
  unfold int_wrap, int_min, int_max. intros Hr.
  destruct (decide (0 < tokens rl)%Z) as [Hpos|Hneg].
  - rewrite Allow_granted by done. cbn [fst snd tokens].
    rewrite Z.mod_small by lia. lia.
  - rewrite Allow_denied by lia. done.
Qed.

Lemma limiter_run_app ops1 ops2 rl :
  limiter_run (ops1 ++ ops2) rl =
  ((limiter_run ops2 (limiter_run ops1 rl).1).1,
   (limiter_run ops1 rl).2 ++ (limiter_run ops2 (limiter_run ops1 rl).1).2).
Proof.
  revert rl. induction ops1 as [|[] ops1 IH]; intros rl; simpl.
  - by destruct (limiter_run ops2 rl).
  - destruct (Allow rl) as [rl1 b]. rewrite IH.
    by destruct (limiter_run ops1 rl1).
  - apply IH.
Qed.

Lemma limiter_run_maxAllowed ops rl :
  maxAllowed (limiter_run ops rl).1 = maxAllowed rl.
Proof.
  revert rl. induction ops as [|[] ops IH]; intros rl; simpl; [done| |].
  - destruct (Allow rl) as [rl1 b] eqn:HA.
    specialize (IH rl1). destruct (limiter_run ops rl1); simpl in *.
    rewrite IH. unfold Allow in HA. by case_match; simplify_eq.
  - by rewrite IH.
Qed.

Lemma limiter_run_tokens_le ops rl :
  (tokens rl ≤ maxAllowed rl)%Z →
  (tokens (limiter_run ops rl).1 ≤ maxAllowed rl)%Z.
Proof.
  revert rl. induction ops as [|[] ops IH]; intros rl Hle; simpl; [done| |].
  - destruct (Allow rl) as [rl1 b] eqn:HA.
    assert (tokens rl1 ≤ maxAllowed rl1 ∧ maxAllowed rl1 = maxAllowed rl)%Z as [H1 H2].
    { unfold Allow in HA. case_match; simplify_eq; simpl; lia. }
    specialize (IH rl1 H1). destruct (limiter_run ops rl1); simpl in *. lia.
  - apply (IH (refill rl)). simpl. lia.
Qed.

(** A burst of [n] calls on a bucket with [tokens rl] left. *)
Lemma limiter_run_burst n rl :
  limiter_run (repeat OpAllow n) rl =
  ({| tokens := if decide (0 < tokens rl)%Z
                then tokens rl - Z.of_nat (n `min` Z.to_nat (tokens rl))
                else tokens rl;
      maxAllowed := maxAllowed rl; ticker := ticker rl |},
   burst n (Z.to_nat (tokens rl))).
Proof.
  revert rl. induction n as [|n IH]; intros rl.
  - destruct rl as [t m k]; simpl. unfold burst. simpl.
    by case_decide; rewrite ?Z.sub_0_r.
  - simpl. destruct (decide (0 < tokens rl)%Z) as [Hpos|Hneg].
    + rewrite Allow_granted by done. rewrite IH. simpl.
      unfold burst.
      replace (Z.to_nat (tokens rl)) with (S (Z.to_nat (tokens rl - 1))) by lia.
      simpl. f_equal. f_equal. case_decide; lia.
    + rewrite Allow_denied by lia. rewrite IH.
      rewrite decide_False by done.
      unfold burst. replace (Z.to_nat (tokens rl)) with 0 by lia.
      destruct rl; simpl. by rewrite Nat.min_0_r, Nat.sub_0_r.
Qed.

Lemma grants_burst n k : grants (burst n k) = n `min` k.
Proof.
  unfold grants, burst. rewrite filter_app, length_app.
  assert (∀ m, filter (λ b, b = true) (repeat true m) = repeat true m) as ->.
  { induction m; simpl; [done|]. rewrite filter_cons_True by done. by f_equal. }
  assert (∀ m, filter (λ b, b = true) (repeat false m) = []) as ->.
  { induction m; simpl; [done|]. by rewrite filter_cons_False. }
  rewrite repeat_length. simpl. lia.
Qed.

Lemma limiter_inv_Allow rl : limiter_inv rl → limiter_inv (Allow rl).1.
Proof.
  unfold limiter_inv, Allow. intros Hinv.
  destruct (0 <? tokens rl)%Z eqn:Hlt; simpl; [|done].
  apply Z.ltb_lt in Hlt. lia.
Qed.

Lemma limiter_inv_refill rl : (0 ≤ maxAllowed rl)%Z → limiter_inv (refill rl).
Proof. unfold limiter_inv. simpl. lia. Qed.

Lemma limiter_inv_run ops rl : limiter_inv rl → limiter_inv (limiter_run ops rl).1.
Proof.
  revert rl. induction ops as [|[] ops IH]; intros rl Hinv; simpl; [done| |].
  - pose proof (limiter_inv_Allow rl Hinv) as H1.
    destruct (Allow rl) as [rl1 b]. specialize (IH rl1 H1).
    by destruct (limiter_run ops rl1).
  - apply IH, limiter_inv_refill. unfold limiter_inv in Hinv. lia.
Qed.

(** C3, as the claim states it, at [max = -1]: a limiter built with a
    negative [max] grants nothing, and nothing is more than [max]
    permits. *)
Lemma limiter_negative_max_counterexample :
  ¬ (Z.of_nat (grants (limiter_run (repeat OpAllow 5) (NewRateLimiter (-1) Hour)).2) ≤ -1)%Z.
Proof. vm_compute. intros Hle. by apply Hle. Qed.

(** C3 (amended): for every [max] and every interval the limiter grants at
    most [max] permits, and none when [max] is negative, between two
    consecutive ticks.  [Allow] grants and takes one token iff
    [tokens > 0], and denies, changing nothing, otherwise.  A tick sets
    [tokens] to exactly [max] whatever was used before: [n] calls after a
    tick (or after construction) get [min n max] grants followed by
    denials only.  With [max = 2], five calls get 2 grants then 3 denials,
    and after the next tick two more are granted and a third is not. *)
Theorem limiter_permits_per_interval (max : Z) (interval : Duration) :
  let rl0 := NewRateLimiter max interval in
  (∀ rl, (Allow rl).2 = bool_decide (0 < tokens rl)%Z ∧
         (Allow rl).1 =
           if (Allow rl).2
           then {| tokens := tokens rl - 1; maxAllowed := maxAllowed rl; ticker := ticker rl |}
           else rl) ∧
  (∀ ops, tokens (refill (limiter_run ops rl0).1) = max) ∧
  (∀ n, (limiter_run (repeat OpAllow n) rl0).2 = burst n (Z.to_nat max)) ∧
  (∀ ops n, (limiter_run (repeat OpAllow n) (refill (limiter_run ops rl0).1)).2
            = burst n (Z.to_nat max)) ∧
  (∀ ops n, grants (limiter_run (repeat OpAllow n) (limiter_run ops rl0).1).2
            ≤ Z.to_nat max) ∧
  (limiter_run [OpAllow; OpAllow; OpAllow; OpAllow; OpAllow; OpTick; OpAllow; OpAllow; OpAllow]
     (NewRateLimiter 2 interval)).2
  = [true; true; false; false; false; true; true; false].
Proof.
  intros rl0. repeat split.
  - unfold Allow. destruct (0 <? tokens rl)%Z eqn:Hlt; simpl.
    + apply Z.ltb_lt in Hlt. by rewrite bool_decide_eq_true_2.
    + apply Z.ltb_ge in Hlt. rewrite bool_decide_eq_false_2; [done|lia].
  - unfold Allow. by destruct (0 <? tokens rl)%Z.
  - intros ops. simpl. by rewrite limiter_run_maxAllowed.
  - intros n. by rewrite limiter_run_burst.
  - intros ops n. rewrite limiter_run_burst. simpl.
    by rewrite limiter_run_maxAllowed.
  - intros ops n. rewrite limiter_run_burst. simpl. rewrite grants_burst.
    pose proof (limiter_run_tokens_le ops rl0) as Hle. simpl in Hle.
    lia.
Qed.

(** C9: for every limiter built with [max ≥ 0], [0 ≤ tokens ≤ max] holds
    at construction and is kept by every call to [Allow] and every tick,
    hence after any sequence of them; a tick sets [tokens] to [max]
    whatever it was. *)
Theorem limiter_invariant (max : Z) (interval : Duration) :
  (0 ≤ max)%Z →
  limiter_inv (NewRateLimiter max interval) ∧
  (∀ rl, limiter_inv rl →
         limiter_inv (Allow rl).1 ∧ limiter_inv (refill rl) ∧
         tokens (refill rl) = maxAllowed rl) ∧
  (∀ ops, let rl := (limiter_run ops (NewRateLimiter max interval)).1 in
          (0 ≤ tokens rl ≤ max)%Z ∧ maxAllowed rl = max).
Proof.
  intros Hmax.
  assert (limiter_inv (NewRateLimiter max interval)) as H0.
  { unfold limiter_inv. simpl. lia. }
  split; [done|]. split.
  - intros rl Hinv. split; [by apply limiter_inv_Allow|].
    split; [|done]. apply limiter_inv_refill. unfold limiter_inv in Hinv. lia.
  - intros ops rl.
    pose proof (limiter_inv_run ops _ H0) as Hinv.
    pose proof (limiter_run_maxAllowed ops (NewRateLimiter max interval)) as Hm.
    unfold limiter_inv in Hinv. fold rl in Hinv, Hm. simpl in Hm. lia.
Qed.

Lemma limiter_invariant_witness :
  (0 ≤ 100)%Z ∧
  limiter_inv (NewRateLimiter 100 Hour) ∧
  limiter_inv (Allow (NewRateLimiter 100 Hour)).1 ∧
  limiter_inv (limiter_run [OpAllow; OpTick; OpAllow] (NewRateLimiter 100 Hour)).1.
Proof.
  assert (0 ≤ 100)%Z as Hmax by lia.
  destruct (limiter_invariant 100 Hour Hmax) as (H0 & Hstep & Hrun).
  split; [exact Hmax|]. split; [exact H0|]. split.
  - exact (proj1 (Hstep _ H0)).
  - pose proof (Hrun [OpAllow; OpTick; OpAllow]) as [Ht Hm].
    unfold limiter_inv. rewrite Hm. exact Ht.
Defined.

(** ** Runs of the controller *)

Section Runs.
Context `{JSON}.

Lemma run_app acts1 acts2 s : run (acts1 ++ acts2) s = run acts2 (run acts1 s).
Proof. revert s. induction acts1 as [|a acts1 IH]; intros s; simpl; [done|apply IH]. Qed.

Lemma run_snoc acts a s : run (acts ++ [a]) s = step a (run acts s).
Proof. by rewrite run_app. Qed.

(** Induction over the states a run of [main] goes through. *)
Lemma run_invariant (P : State → Prop) :
  P main → (∀ a s, P s → P (step a s)) → ∀ acts, P (run acts main).
Proof.
  intros Hmain Hstep acts. induction acts as [|a acts IH] using rev_ind; [done|].
  rewrite run_snoc. by apply Hstep.
Qed.

Lemma step_exited a s : exited s = true → step a s = s.
Proof. intros Hex. unfold step. by rewrite Hex. Qed.

Lemma run_exited acts s : exited s = true → run acts s = s.
Proof.
  revert s. induction acts as [|a acts IH]; intros s Hex; simpl; [done|].
  rewrite step_exited by done. by apply IH.
Qed.

End Runs.

(** Case analysis on one step: unfolds the goroutine that moves and splits
    on everything it tests. *)
Ltac step_unfold :=
  unfold step, handleAppConnection, tick, readEventsFromApp, main_provider,
    backup_provider, worker_step, startWorker, set_reader, emit, crash in *.

Ltac step_cases a s :=
  let Hex := fresh "Hex" in
  destruct (exited s) eqn:Hex;
  [ rewrite (step_exited a s Hex) in *
  | unfold step; rewrite Hex; destruct a ].

(** ** The wiring of [main] *)

Section Wiring.
Context `{JSON}.


Lemma wiring_inv_step a s : wiring_inv s → wiring_inv (step a s).
Proof.
  intros [Hw1 Hw2 Hw3 Hw4 Hw5].
  step_cases a s; [done|..]; step_unfold.
  all: try destruct ws.
  all: repeat case_match; simplify_eq/=.
  all: split; simpl; try done.
  all: intros; simplify_eq/=.
  all: try match goal with
       | Hx : workerMain _ = Some ?w |- _ => destruct (Hw3 w Hx) as (?&?&?)
       end.
  all: try match goal with
       | Hx : workerBackup _ = Some ?w |- _ => destruct (Hw5 w Hx) as (?&?&?)
       end.
  all: try (repeat split; congruence).
  all: try (apply Hw2; congruence).
  all: try (apply Hw4; congruence).
  all: try (specialize (Hw4 ltac:(assumption)); congruence).
  all: try (specialize (Hw2 ltac:(assumption)); congruence).
Qed.

Lemma wiring_backup_done s w :
  wiring_inv s → workerBackup s = Some w → setupBackup s = SDone.
Proof.
  intros Hwire Hw. destruct (setupBackup s) eqn:Hsb; [| |done].
  - rewrite (wr_backup_none _ Hwire) in Hw; [done|congruence].
  - rewrite (wr_backup_none _ Hwire) in Hw; [done|congruence].
Qed.

Lemma wiring_inv_main : wiring_inv main.
Proof. by split. Qed.

End Wiring.

(** ** The drain loop *)

Section Drain.
Context `{JSON}.

Lemma drained_snoc ws tr o : drained ws (tr ++ [o]) = drained ws tr ++ drained ws [o].
Proof. unfold drained. by rewrite omap_app. Qed.

Lemma by_provider_snoc ws tr o :
  by_provider ws (tr ++ [o]) = by_provider ws tr ++ by_provider ws [o].
Proof. unfold by_provider. by rewrite filter_app. Qed.

Lemma by_provider_singleton_same ws o :
  obs_of o = Some ws → by_provider ws [o] = [o].
Proof. intros Ho. unfold by_provider. by rewrite filter_cons_True. Qed.

Lemma by_provider_singleton_other ws o :
  obs_of o ≠ Some ws → by_provider ws [o] = [].
Proof. intros Ho. unfold by_provider. by rewrite filter_cons_False. Qed.

Lemma drained_app ws tr1 tr2 : drained ws (tr1 ++ tr2) = drained ws tr1 ++ drained ws tr2.
Proof. unfold drained. by rewrite omap_app. Qed.

Lemma by_provider_app ws tr1 tr2 :
  by_provider ws (tr1 ++ tr2) = by_provider ws tr1 ++ by_provider ws tr2.
Proof. unfold by_provider. by rewrite filter_app. Qed.

Lemma drained_other ws o : obs_of o ≠ Some ws → drained ws [o] = [].
Proof.
  intros Ho. destruct o as [| | | |p [] msg []| | |]; try done.
  unfold drained; simpl in *. case_decide; [congruence|done].
Qed.

Lemma drained_by_provider ws tr : drained ws tr = drained ws (by_provider ws tr).
Proof.
  induction tr as [|o tr IH]; [done|].
  change (o :: tr) with ([o] ++ tr).
  rewrite by_provider_app, !drained_app, <- IH. f_equal.
  destruct (decide (obs_of o = Some ws)) as [Ho|Ho].
  - by rewrite by_provider_singleton_same.
  - by rewrite by_provider_singleton_other, drained_other.
Qed.

Lemma drained_nil ws tr : by_provider ws tr = [] → drained ws tr = [].
Proof. intros Hnil. by rewrite drained_by_provider, Hnil. Qed.

Lemma sent_prefix_length (sent : list frame) (evs : list Event) :
  sent = map Marshal (take (length sent) evs) → length sent ≤ length evs.
Proof.
  intros Heq. apply (f_equal length) in Heq.
  rewrite length_map, length_take in Heq. lia.
Qed.

Lemma sent_prefix_app (sent : list frame) (evs : list Event) e :
  sent = map Marshal (take (length sent) evs) →
  sent = map Marshal (take (length sent) (evs ++ [e])).
Proof.
  intros Heq. pose proof (sent_prefix_length _ _ Heq).
  by rewrite take_app_le.
Qed.

Lemma sent_prefix_snoc (sent : list frame) (evs : list Event) e :
  sent = map Marshal (take (length sent) evs) →
  evs !! length sent = Some e →
  sent ++ [Marshal e] = map Marshal (take (length (sent ++ [Marshal e])) evs).
Proof.
  intros Heq Hlook. rewrite length_app. simpl.
  rewrite Nat.add_1_r. rewrite (take_S_r _ _ _ Hlook), map_app. simpl.
  by rewrite <- Heq.
Qed.


Lemma drain_inv_main ws : drain_inv ws main.
Proof. split; try done; destruct ws; done. Qed.

Lemma drain_inv_step ws a s : wiring_inv s → drain_inv ws s → drain_inv ws (step a s).
Proof.
  intros Hwire [Hnone Hsent Hidx Hfetch Hhand Honly Hdial Hstart].
  step_cases a s; [done|..]; step_unfold.
  all: try destruct ws0.
  all: repeat case_match; simplify_eq/=.
  all: destruct ws.
  all: split; simpl.
  all: rewrite ?drained_snoc, ?by_provider_snoc; simpl; rewrite ?app_nil_r.
  all: try done.
  all: intros; simplify_eq/=.
  all: try by apply sent_prefix_app.
  all: try (apply lookup_app_l_Some; by eapply Hhand).
  all: try (rewrite length_app; simpl; eapply Nat.lt_le_trans; [by eapply Hfetch|lia]).
  all: try done.
  all: try (match goal with Hs : setupMain _ = SDial |- _ =>
              pose proof (Hnone (wr_main_none _ Hwire Hs)) as Hbp end;
            rewrite ?(drained_nil Main _ Hbp), ?Hbp; simpl; try done;
            rewrite ?by_provider_singleton_same by done;
            first [by apply Forall_singleton | by eexists]).
  all: try (match goal with Hs : setupBackup _ = SDial |- _ =>
              pose proof (Hnone (wr_backup_none _ Hwire ltac:(congruence))) as Hbp end;
            rewrite ?(drained_nil Backup _ Hbp), ?Hbp; simpl; try done;
            rewrite ?by_provider_singleton_same by done;
            first [by apply Forall_singleton | by eexists]).
  all: match goal with Hw : _ = Some ?w, Hpc : pc ?w = _ |- _ =>
         pose proof (Hdial w Hw) as [rest Hrest];
         try pose proof (Hidx w _ Hw ltac:(by rewrite Hpc)) as Hi;
         try pose proof (Honly w _ Hw ltac:(by rewrite Hpc)) as Ho;
         try pose proof (Hhand w _ _ Hw ltac:(by rewrite Hpc)) as Hh;
         try (pose proof (λ Hb, Hstart w Hw Hb) as Hst; rewrite Hpc in Hst; simpl in Hst)
       end.
  all: try done.
  all: try (apply Forall_app; split; [done|];
            rewrite by_provider_singleton_same by done; by apply Forall_singleton).
  all: try (rewrite length_app; simpl; lia).
  all: try (apply sent_prefix_snoc; [done|by rewrite Hi]).
  all: try (rewrite Hrest; by eexists).
  all: try by apply Hst.
  all: match goal with Hx : _ ++ by_provider _ [_] = [_] |- _ =>
         rewrite Hrest, by_provider_singleton_same in Hx by done;
         apply (f_equal length) in Hx; rewrite length_app in Hx; simpl in Hx; lia
       end.
Qed.

End Drain.

(** ** The two disciplines *)

Section Disciplines.
Context `{JSON}.

Lemma monitor_snoc {Q} (next : Q → Obs → option Q) q tr o :
  monitor next q (tr ++ [o]) = monitor next q tr ≫= λ q', next q' o.
Proof.
  revert q. induction tr as [|o' tr IH]; intros q; simpl.
  - by destruct (next q o).
  - destruct (next q o'); [apply IH|done].
Qed.


Lemma permit_inv_main ws : permit_inv ws main.
Proof. exists PIdle. by destruct ws. Qed.

Lemma permit_inv_step ws a s :
  wiring_inv s → permit_inv ws s → permit_inv ws (step a s).
Proof.
  intros Hwire (q & Hq & Hrel). unfold permit_inv.
  step_cases a s; [eauto|..]; step_unfold.
  all: try destruct ws0.
  all: repeat case_match; simplify_eq/=.
  all: destruct ws; simpl in *.
  all: rewrite ?monitor_snoc, ?Hq; simpl.
  all: try (exists q; split; [done|]; done).
  all: unfold permit_rel in *; simpl in *.
  all: try match goal with Hx : workerMain _ = Some _ |- _ => rewrite ?Hx in Hrel end.
  all: try match goal with Hx : workerBackup _ = Some _ |- _ => rewrite ?Hx in Hrel end.
  all: simpl in Hrel; try match goal with Hx : pc _ = _ |- _ => rewrite ?Hx in Hrel end.
  all: try (rewrite (wr_main_none _ Hwire) in Hrel by done).
  all: try (rewrite (wr_backup_none _ Hwire) in Hrel by congruence).
  all: simpl in Hrel.
  all: first [destruct Hrel as [-> | ->] | subst q].
  all: eexists; (split; [reflexivity|]); simpl; auto.
Qed.


Lemma relay_inv_main ws : relay_inv ws main.
Proof. exists RBefore. by destruct ws. Qed.

Lemma relay_inv_step ws a s :
  wiring_inv s → relay_inv ws s → relay_inv ws (step a s).
Proof.
  intros Hwire (q & Hq & Hrel). unfold relay_inv.
  step_cases a s; [eauto|..]; step_unfold.
  all: try destruct ws0.
  all: repeat case_match; simplify_eq/=.
  all: destruct ws; simpl in *.
  all: rewrite ?monitor_snoc, ?Hq; simpl.
  all: try (exists q; split; [done|]; done).
  all: unfold relay_rel in *; simpl in *.
  all: try match goal with Hx : workerMain _ = Some _ |- _ => rewrite ?Hx in Hrel end.
  all: try match goal with Hx : workerBackup _ = Some _ |- _ => rewrite ?Hx in Hrel end.
  all: simpl in Hrel; try match goal with Hx : pc _ = _ |- _ => rewrite ?Hx in Hrel end.
  all: try (rewrite (wr_main_none _ Hwire) in Hrel by done).
  all: try (rewrite (wr_backup_none _ Hwire) in Hrel by congruence).
  all: simpl in Hrel.
  all: try (exists q; split; [done|]; by auto).
  all: first [destruct Hrel as [-> | ->] | subst q].
  all: eexists; (split; [unfold relay_next; simpl; rewrite ?decide_True by done;
                         reflexivity|]); simpl; auto.
Qed.

End Disciplines.

(** ** The failover signal *)

Section Failover.
Context `{JSON}.

Lemma preceded_nil P Q : preceded P Q [].
Proof. intros [|??] ??; discriminate. Qed.

Lemma preceded_same P Q tr : preceded P Q tr → preceded P Q tr.
Proof. done. Qed.

Lemma preceded_snoc P Q tr o :
  preceded P Q tr → (Q o → ∃ o', o' ∈ tr ∧ P o') → preceded P Q (tr ++ [o]).
Proof.
  intros Hp Hnew pre o1 post Heq HQ.
  destruct post as [|p post _] using rev_ind.
  - apply app_inj_tail in Heq as [-> ->]. by apply Hnew.
  - rewrite app_comm_cons, app_assoc in Heq.
    apply app_inj_tail in Heq as [Heq _]. by eapply Hp.
Qed.

Lemma signals_snoc tr o : signals (tr ++ [o]) = signals tr ++ signals [o].
Proof. unfold signals. by rewrite omap_app. Qed.

Lemma signals_elem ws tr : ws ∈ signals tr → ObsSignal ws ∈ tr.
Proof.
  unfold signals. rewrite list_elem_of_omap. intros (o & Ho & Heq).
  destruct o; simplify_eq. done.
Qed.

Lemma signal_sent s :
  signals (trace s) = [Main] → ∃ o', o' ∈ trace s ∧ is_signal o'.
Proof.
  intros Hs. exists (ObsSignal Main). split; [|by exists Main].
  apply signals_elem. rewrite Hs. by left.
Qed.


Lemma failover_inv_main : failover_inv main.
Proof. split; try done; apply preceded_nil. Qed.

Lemma failover_inv_step a s : wiring_inv s → failover_inv s → failover_inv (step a s).
Proof.
  intros Hwire [Hnone Honce Htrig Hfin Hback].
  step_cases a s; [done|..]; step_unfold.
  all: try destruct ws.
  all: repeat case_match; simplify_eq/=.
  all: try (exfalso;
            match goal with Hx : workerBackup _ = Some ?w, Hp : pc ?w = WTrigger |- _ =>
              by destruct (wr_backup_some _ Hwire w Hx) as (?&?&?) end).
  all: try match goal with Hx : workerBackup _ = Some ?w |- _ =>
         pose proof (wiring_backup_done _ _ Hwire Hx)
       end.
  all: split; simpl.
  all: rewrite ?signals_snoc; simpl; rewrite ?app_nil_r.
  all: try done.
  all: try (intros; simplify_eq/=; rewrite ?Hnone, ?Honce by congruence; done).
  all: try (intros; simplify_eq/=; rewrite elem_of_app;
            first [left; eapply Htrig; [eassumption|eassumption] | right; by left]).
  all: apply preceded_snoc; [done|]; intros HQ.
  all: try (by destruct HQ).
  all: try (simpl in HQ; congruence).
  all: try (apply signal_sent, Honce; congruence).
  all: exists (ObsFinished Main); split; [eapply Htrig; eassumption|done].
Qed.

End Failover.

(** ** The ingress reader *)

Section Ingress.
Context `{JSON}.

Lemma ingress_snoc tr o : ingress (tr ++ [o]) = ingress tr ++ ingress [o].
Proof. unfold ingress. by rewrite omap_app. Qed.

Lemma pending_app rs1 rs2 : pending (rs1 ++ rs2) = pending rs1 ++ pending rs2.
Proof. unfold pending. by rewrite omap_app. Qed.

Lemma decode_ok msg e : Unmarshal msg zeroEvent = (e, None) → decode msg = Some e.
Proof. intros Hu. unfold decode. by rewrite Hu. Qed.

Lemma decode_err msg e j : Unmarshal msg zeroEvent = (e, Some j) → decode msg = None.
Proof. intros Hu. unfold decode. by rewrite Hu. Qed.

Lemma decoded_snoc_ok msgs msg e :
  decode msg = Some e → omap decode (msgs ++ [msg]) = omap decode msgs ++ [e].
Proof. intros Hd. rewrite omap_app. simpl. by rewrite Hd. Qed.

Lemma decoded_snoc_err msgs msg :
  decode msg = None → omap decode (msgs ++ [msg]) = omap decode msgs.
Proof. intros Hd. rewrite omap_app. simpl. by rewrite Hd, app_nil_r. Qed.

(** Moving one reader changes what is pending at its place only. *)
Lemma pending_insert rs k q q' :
  rs !! k = Some q →
  ∃ l1 l2, pending rs = l1 ++ pending [q] ++ l2 ∧
           pending (<[k:=q']> rs) = l1 ++ pending [q'] ++ l2.
Proof.
  intros Hk. exists (pending (take k rs)), (pending (drop (S k) rs)). split.
  - rewrite <- (take_drop_middle rs k q Hk) at 1.
    change (q :: drop (S k) rs) with ([q] ++ drop (S k) rs).
    by rewrite !pending_app.
  - rewrite insert_take_drop by (by eapply lookup_lt_Some).
    change (q' :: drop (S k) rs) with ([q'] ++ drop (S k) rs).
    by rewrite !pending_app.
Qed.


Lemma ingress_inv_main : ingress_inv main.
Proof. unfold ingress_inv. simpl. reflexivity. Qed.

Lemma ingress_inv_step a s : ingress_inv s → ingress_inv (step a s).
Proof.
  unfold ingress_inv. intros Hinv.
  step_cases a s; [done|..]; step_unfold.
  all: try destruct ws.
  all: repeat case_match; simplify_eq/=.
  all: rewrite ?ingress_snoc, ?pending_app; simpl; rewrite ?app_nil_r.
  all: try done.
  all: try match goal with
       | Hk : readers _ !! ?k = Some ?q |- context [<[?k:=?q']> (readers _)] =>
           destruct (pending_insert _ k q q' Hk) as (l1 & l2 & Hp & ->);
           rewrite Hp in Hinv; simpl in *
       end.
  all: try done.
  - by erewrite decoded_snoc_err by (by eapply decode_err).
  - erewrite decoded_snoc_ok by (by eapply decode_ok).
    rewrite <- Hinv, <- !app_assoc. do 2 f_equiv. apply Permutation_cons_append.
  - rewrite <- Hinv, <- !app_assoc. simpl. f_equiv.
    by rewrite <- Permutation_middle.
Qed.

End Ingress.

(** ** What holds of every state a run of [main] reaches *)

Section Reach.
Context `{JSON}.


Lemma reach_inv_step a s : reach_inv s → reach_inv (step a s).
Proof.
  intros [Hw Hd Hp Hr Hf Hi]. split.
  - by apply wiring_inv_step.
  - intros ws. by apply drain_inv_step.
  - intros ws. by apply permit_inv_step.
  - intros ws. by apply relay_inv_step.
  - by apply failover_inv_step.
  - by apply ingress_inv_step.
Qed.

Lemma reach_inv_run acts : reach_inv (run acts main).
Proof.
  apply run_invariant; [|intros; by apply reach_inv_step].
  split.
  - apply wiring_inv_main.
  - apply drain_inv_main.
  - apply permit_inv_main.
  - apply relay_inv_main.
  - apply failover_inv_main.
  - apply ingress_inv_main.
Qed.

(** The same from any state that has the invariants. *)
Lemma reach_inv_from acts s : reach_inv s → reach_inv (run acts s).
Proof.
  revert s. induction acts as [|a acts IH]; intros s Hs; simpl; [done|].
  by apply IH, reach_inv_step.
Qed.

End Reach.

(** ** The app connection *)

Section Connections.
Context `{JSON}.

Lemma conn_inv_main : conn_inv main.
Proof. by split. Qed.

Lemma insert_not_nil {A} (l : list A) k x y : l !! k = Some x → <[k:=y]> l ≠ [].
Proof.
  intros Hk Hnil%(f_equal length). rewrite length_insert in Hnil.
  apply lookup_lt_Some in Hk. simpl in Hnil. lia.
Qed.

(** With one reader at most, the reader that moves is the only one. *)
Lemma single_reader (rs : list ReaderPc) k q :
  rs !! k = Some q → length rs ≤ 1 → rs = [q] ∧ k = 0.
Proof.
  intros Hk Hlen. destruct rs as [|q' [|??]]; simpl in *; try done; try lia.
  destruct k; simplify_eq/=; done.
Qed.

Lemma conn_inv_step a s : conn_inv s → conn_inv (step a s).
Proof.
  intros [Hnil Hconn Hempty Horder].
  step_cases a s; [done|..]; step_unfold.
  all: try destruct ws.
  all: repeat case_match; simplify_eq/=.
  all: split; simpl; rewrite ?length_app, ?length_insert; simpl.
  all: rewrite ?ingress_snoc, ?pending_app; simpl; rewrite ?app_nil_r.
  all: try done.
  all: try (intros; simplify_eq; lia).
  all: try (intros; apply Hconn; congruence).
  all: try (intros Hx; exfalso; by eapply insert_not_nil).
  all: try (intros Hx; apply Hnil in Hx;
            match goal with Hk : readers _ !! _ = Some _ |- _ =>
              by rewrite Hx in Hk end).
  all: try (intros ?%(f_equal length); rewrite length_app in *; simpl in *; lia).
  all: try (intros Hlen; assert (readers s = []) as Hr
              by (destruct (readers s); [done|simpl in Hlen; lia]);
            rewrite Hr in *; simpl; rewrite <- Horder by (simpl; lia);
            by rewrite Hempty, ?app_nil_r).
  all: intros Hlen;
       match goal with Hk : readers _ !! _ = Some _ |- _ =>
         destruct (single_reader _ _ _ Hk Hlen) as [Hr ->] end;
       rewrite Hr in *; simpl in *; specialize (Horder Hlen).
  all: rewrite ?app_nil_r in *.
  - by erewrite decoded_snoc_err by (by eapply decode_err).
  - erewrite decoded_snoc_ok by (by eapply decode_ok). by rewrite Horder.
  - done.
  - by rewrite <- Horder.
Qed.

Lemma conn_inv_run acts : conn_inv (run acts main).
Proof. apply run_invariant; [apply conn_inv_main|intros; by apply conn_inv_step]. Qed.



End Connections.

(** ** Progress of the drain loop *)

Section DrainProgress.
Context `{JSON}.

(** One turn of the drain loop when a token is left and the write goes
    through: test, fetch, permit, send. *)
Lemma drain_one_event s ws w i e :
  exited s = false → worker ws s = Some w → pc w = WLoop i →
  events s !! i = Some e → (0 < tokens (ratelimiter s))%Z →
  let s' := run (repeat (ActWorker ws None true) 4) s in
  worker ws s' = Some (at_pc w (WLoop (S i))) ∧ events s' = events s ∧
  exited s' = false ∧
  tokens (ratelimiter s') = (tokens (ratelimiter s) - 1)%Z ∧
  trace s' = trace s ++ [ObsAllow ws true; ObsWrite ws Draining (Marshal e) true].
Proof.
  intros Hex Hw Hpc He Htok s'. subst s'. simpl.
  pose proof (lookup_lt_Some _ _ _ He) as Hlt.
  assert (step (ActWorker ws None true) s
          = set_worker ws (Some (at_pc w (WFetch i))) s) as ->.
  { unfold step. rewrite Hex. unfold worker_step. rewrite Hw, Hpc.
    by rewrite decide_True. }
  destruct ws; unfold step; simpl in *; rewrite ?Hex; unfold worker_step; simpl.
  all: rewrite He; simpl; rewrite Hex; simpl.
  all: rewrite Allow_granted by done; simpl; rewrite Hex; simpl.
  all: by rewrite <- app_assoc.
Qed.

(** As many turns as there are events left, with a token for each. *)
Lemma drain_run n s ws w i :
  exited s = false → worker ws s = Some w → pc w = WLoop i →
  i + n = length (events s) → (Z.of_nat n ≤ tokens (ratelimiter s))%Z →
  let s' := run (repeat (ActWorker ws None true) (4 * n)) s in
  worker ws s' = Some (at_pc w (WLoop (length (events s)))) ∧
  events s' = events s ∧ exited s' = false ∧
  drained ws (trace s') = drained ws (trace s) ++ map Marshal (drop i (events s)).
Proof.
  revert s w i. induction n as [|n IH]; intros s w i Hex Hw Hpc Hlen Htok s'.
  - subst s'. simpl. rewrite Nat.add_0_r in Hlen. subst i.
    rewrite drop_all, app_nil_r. by destruct w; simpl in *; subst.
  - destruct (lookup_lt_is_Some_2 (events s) i ltac:(lia)) as [e He].
    subst s'. replace (4 * S n) with (4 + 4 * n) by lia.
    rewrite repeat_app, run_app.
    destruct (drain_one_event s ws w i e Hex Hw Hpc He ltac:(lia))
      as (Hw1 & He1 & Hex1 & Htok1 & Htr1).
    set (s1 := run (repeat (ActWorker ws None true) 4) s) in *.
    destruct (IH s1 (at_pc w (WLoop (S i))) (S i) Hex1 Hw1 eq_refl
                ltac:(rewrite He1; lia) ltac:(rewrite Htok1; lia))
      as (Hw2 & He2 & Hex2 & Htr2).
    rewrite He1 in Hw2, He2, Htr2.
    split; [done|]. split; [done|]. split; [done|].
    rewrite Htr2, Htr1, drained_app, (drop_S _ _ _ He), <- app_assoc.
    f_equal. by destruct ws; unfold drained; simpl.
Qed.

(** ** The permit loop *)

Lemma Allow_maxAllowed rl : maxAllowed (Allow rl).1 = maxAllowed rl.
Proof. unfold Allow. by case_match. Qed.

Lemma limiter_max_step a s :
  maxAllowed (ratelimiter (step a s)) = maxAllowed (ratelimiter s).
Proof.
  step_cases a s; [done|..]; step_unfold.
  all: try destruct ws.
  all: repeat case_match; simplify_eq/=; try done.
  all: match goal with Hx : Allow ?rl = (_, _) |- _ =>
         pose proof (Allow_maxAllowed rl) as Hm; by rewrite Hx in Hm end.
Qed.

(** The limiter of the controller keeps the [max] it was made with. *)
Lemma limiter_max_run acts : maxAllowed (ratelimiter (run acts main)) = 100%Z.
Proof.
  apply (run_invariant (λ s, maxAllowed (ratelimiter s) = 100%Z)); [done|].
  intros a s Hs. by rewrite limiter_max_step.
Qed.

(** The call to [Allow] of a worker that is at it. *)
Lemma permit_step s ws w i e rd wr_ok :
  exited s = false → worker ws s = Some w → pc w = WPermit i e →
  let s' := step (ActWorker ws rd wr_ok) s in
  let granted := (Allow (ratelimiter s)).2 in
  ratelimiter s' = (Allow (ratelimiter s)).1 ∧
  trace s' = trace s ++ [ObsAllow ws granted] ∧
  worker ws s' = Some (at_pc w (if granted then WSend i e else WSleep i e)) ∧
  events s' = events s ∧ exited s' = false.
Proof.
  intros Hex Hw Hpc s' granted. subst s' granted.
  unfold step. rewrite Hex. unfold worker_step. rewrite Hw, Hpc.
  destruct (Allow (ratelimiter s)) as [rl g]. by destruct ws.
Qed.

(** The sleep of a worker that was denied: it goes back to the call. *)
Lemma sleep_step s ws w i e rd wr_ok :
  exited s = false → worker ws s = Some w → pc w = WSleep i e →
  let s' := step (ActWorker ws rd wr_ok) s in
  ratelimiter s' = ratelimiter s ∧
  trace s' = trace s ++ [ObsSleep ws Minute] ∧
  worker ws s' = Some (at_pc w (WPermit i e)) ∧
  events s' = events s ∧ exited s' = false.
Proof.
  intros Hex Hw Hpc s'. subst s'.
  unfold step. rewrite Hex. unfold worker_step. rewrite Hw, Hpc. by destruct ws.
Qed.

(** The write of a worker that holds a permit. *)
Lemma send_step s ws w i e rd wr_ok :
  exited s = false → worker ws s = Some w → pc w = WSend i e →
  let s' := step (ActWorker ws rd wr_ok) s in
  ratelimiter s' = ratelimiter s ∧
  trace s' = trace s ++ [ObsWrite ws Draining (Marshal e) wr_ok] ∧
  worker ws s' = Some (at_pc w (if wr_ok then WLoop (S i) else WReturned)) ∧
  events s' = events s.
Proof.
  intros Hex Hw Hpc s'. subst s'.
  unfold step. rewrite Hex. unfold worker_step. rewrite Hw, Hpc. by destruct ws.
Qed.

Lemma tick_step s ws :
  exited s = false →
  let s' := step ActTick s in
  ratelimiter s' = refill (ratelimiter s) ∧ trace s' = trace s ∧
  worker ws s' = worker ws s ∧ events s' = events s ∧ exited s' = false.
Proof. intros Hex s'. subst s'. unfold step. rewrite Hex. by destruct ws. Qed.

End DrainProgress.
(** * The claims *)

Section ClaimsDrain.
Context `{JSON}.

(** C2 (amended): a worker drains the buffer in strict index order, each
    event exactly once, and index order is the order of the appends; it is
    the order of arrival as long as one app connection only has been
    accepted.  In every run, a worker at its loop test with index [i] has
    written (with no error) exactly the first [i] events of the buffer, in
    order; when the test fails it has written the whole buffer and done
    nothing else on its connection but calls to the limiter and sleeps;
    with one reader what it has written, followed by the event that is
    read and not yet appended, is the events of the frames that decoded in
    the order in which they were read; and absent a write error, with a
    token for each event left, the worker does write what is left of the
    buffer and comes to a failing test. *)
Theorem drain_sends_buffer_in_order acts ws w i :
  let s := run acts main in
  worker ws s = Some w → pc w = WLoop i →
  drained ws (trace s) = map Marshal (take i (events s)) ∧
  (length (events s) ≤ i →
     drained ws (trace s) = map Marshal (events s) ∧
     Forall drain_obs (by_provider ws (trace s))) ∧
  (length (readers s) ≤ 1 → length (events s) ≤ i →
     drained ws (trace s) ++ map Marshal (pending (readers s))
       = map Marshal (omap decode (ingress (trace s)))) ∧
  (∀ n, exited s = false → i + n = length (events s) →
        (Z.of_nat n ≤ tokens (ratelimiter s))%Z →
        let s' := run (repeat (ActWorker ws None true) (4 * n)) s in
        worker ws s' = Some (at_pc w (WLoop (length (events s)))) ∧
        events s' = events s ∧
        drained ws (trace s') = map Marshal (events s)).
Proof.
  intros s Hw Hpc.
  destruct (ri_drain _ (reach_inv_run acts) ws) as [_ Hsent Hidx _ _ Honly _ _].
  fold s in Hsent, Hidx, Honly.
  pose proof (Hidx w i Hw ltac:(by rewrite Hpc)) as Hi.
  assert (drained ws (trace s) = map Marshal (take i (events s))) as Htake
    by (by rewrite Hsent, Hi).
  split; [done|]. split; [|split].
  - intros Hlen. split; [|eapply Honly; [done|by rewrite Hpc]].
    by rewrite Htake, take_ge.
  - intros Hone Hlen.
    pose proof (ci_order _ (conn_inv_run acts) Hone) as Hord. fold s in Hord.
    rewrite <- Hord, map_app. by rewrite Htake, take_ge.
  - intros n Hex Hlen Htok s'.
    destruct (drain_run n s ws w i Hex Hw Hpc Hlen Htok) as (Hw' & Hev & _ & Hdr).
    split; [done|]. split; [done|].
    fold s' in Hdr. by rewrite Hdr, Htake, <- map_app, take_drop.
Qed.

End ClaimsDrain.

(** C2, as stated in the specification, does not hold with two app
    connections.  The reader of the first app reads [frame1], the second
    app connects, its reader reads [frame2] and appends, then the first
    reader appends: the buffer is [event2; event1], and the main worker,
    whose loop test fails at index 2, has sent the two events in index
    order, which is not the order of arrival. *)
Lemma drain_arrival_order_counterexample :
  let s := run Scenario.two_apps main in
  worker Main s = Some (mkWorker "Main" true (WLoop 2)) ∧
  length (events s) ≤ 2 ∧ pending (readers s) = [] ∧
  omap decode (ingress (trace s)) = [Scenario.event1; Scenario.event2] ∧
  drained Main (trace s) = map Marshal [Scenario.event2; Scenario.event1] ∧
  drained Main (trace s) ≠ map Marshal (omap decode (ingress (trace s))).
Proof.
  split; [vm_compute; reflexivity|].
  split; [vm_compute; lia|].
  split; [vm_compute; reflexivity|].
  split; [vm_compute; reflexivity|].
  split; [vm_compute; reflexivity|].
  vm_compute. discriminate.
Qed.

Lemma drain_sends_buffer_in_order_witness :
  let s := run Scenario.three_buffered main in
  let s' := run (repeat (ActWorker Main None true) (4 * 3)) s in
  (worker Main s = Some (mkWorker "Main" true (WLoop 0)) ∧ exited s = false ∧
   0 + 3 = length (events s) ∧ (Z.of_nat 3 ≤ tokens (ratelimiter s))%Z) ∧
  events s = [Scenario.event1; Scenario.event2; Scenario.event3] ∧
  worker Main s' = Some (mkWorker "Main" true (WLoop (length (events s)))) ∧
  drained Main (trace s') = map Marshal (events s).
Proof.
  assert (worker Main (run Scenario.three_buffered main)
          = Some (mkWorker "Main" true (WLoop 0))) as Hw by (vm_compute; reflexivity).
  assert (exited (run Scenario.three_buffered main) = false) as Hex
    by (vm_compute; reflexivity).
  assert (0 + 3 = length (events (run Scenario.three_buffered main))) as Hlen
    by (vm_compute; reflexivity).
  assert (Z.of_nat 3 ≤ tokens (ratelimiter (run Scenario.three_buffered main)))%Z as Htok
    by (vm_compute; discriminate).
  destruct (proj2 (proj2 (proj2
              (drain_sends_buffer_in_order Scenario.three_buffered Main _ 0 Hw eq_refl)))
              3 Hex Hlen Htok) as (Hw' & _ & Hdr).
  split; [by repeat split|]. split; [vm_compute; reflexivity|].
  split; [exact Hw'|exact Hdr].
Defined.

Section ClaimsIngress.
Context `{JSON}.


(** What a reader does with a frame, from any state in which it is at its
    read: a frame that decodes is appended by its next step, a frame that
    does not decode changes neither the buffer nor the reader. *)
Lemma reader_takes_frame s k conn msg e :
  exited s = false → readers s !! k = Some RRead → appConn s = Some conn →
  decode msg = Some e →
  let s' := run [ActReader k (Some msg); ActReader k None] s in
  events s' = events s ++ [e] ∧ readers s' = readers s ∧ exited s' = false ∧
  appConn s' = appConn s.
Proof.
  intros Hex Hk Hconn Hd s'. subst s'. simpl.
  assert (step (ActReader k (Some msg)) s
          = set_reader k (RAppend e) (emit (ObsIngress k conn msg) s)) as ->.
  { unfold step. rewrite Hex. unfold readEventsFromApp. rewrite Hk, Hconn.
    unfold decode in Hd.
    by destruct (Unmarshal msg zeroEvent) as [e' [j|]]; simplify_eq. }
  unfold step. simpl. rewrite Hex. unfold readEventsFromApp. simpl.
  rewrite list_lookup_insert_eq by (by eapply lookup_lt_Some). simpl.
  rewrite list_insert_insert_eq, list_insert_id by done. done.
Qed.

Lemma reader_drops_frame s k conn msg :
  exited s = false → readers s !! k = Some RRead → appConn s = Some conn →
  decode msg = None →
  let s' := run [ActReader k (Some msg)] s in
  events s' = events s ∧ readers s' = readers s ∧ exited s' = false ∧
  appConn s' = appConn s.
Proof.
  intros Hex Hk Hconn Hd s'. subst s'. unfold decode in Hd.
  simpl. unfold step. rewrite Hex. unfold readEventsFromApp.
  rewrite Hk, Hconn.
  by destruct (Unmarshal msg zeroEvent) as [e' [j|]] eqn:Hu; simplify_eq.
Qed.


End ClaimsIngress.


Section ClaimsDisciplines.
Context `{JSON}.

Lemma monitor_by_provider {Q} (next : Q → Obs → option Q) ws q tr :
  (∀ q o, obs_of o ≠ Some ws → next q o = Some q) →
  monitor next q tr = monitor next q (by_provider ws tr).
Proof.
  intros Hskip. revert q. induction tr as [|o tr IH]; intros q; [done|].
  unfold by_provider. rewrite filter_cons. fold (by_provider ws tr).
  case_decide as Ho; simpl.
  - destruct (next q o); [apply IH|done].
  - rewrite Hskip by done. apply IH.
Qed.

Lemma permit_next_skip ws q o : obs_of o ≠ Some ws → permit_next ws q o = Some q.
Proof. intros Ho. unfold permit_next. by rewrite decide_False. Qed.

Lemma relay_next_skip ws q o : obs_of o ≠ Some ws → relay_next ws q o = Some q.
Proof. intros Ho. unfold relay_next. by rewrite decide_False. Qed.


Lemma permit_next_pair ws q a b q1 q2 :
  obs_of a = Some ws → obs_of b = Some ws →
  permit_next ws q a = Some q1 → permit_next ws q1 b = Some q2 →
  permit_pair ws a b.
Proof.
  intros Ha Hb. unfold permit_next. rewrite !decide_True by done.
  intros H1 H2. unfold permit_pair.
  destruct a as [| | ?[]|?|?[]?[]| | |], q; simplify_eq/=.
  all: destruct b as [| | ?[]|? ?|?[]?[]| | |]; simplify_eq/=.
  all: repeat split; intros; simplify_eq/=; eauto.
  all: repeat case_decide; simplify_eq/=; done.
Qed.

Lemma permit_monitor_pairs ws l q q' :
  Forall (λ o, obs_of o = Some ws) l →
  monitor (permit_next ws) q l = Some q' →
  ∀ pre a b post, l = pre ++ a :: b :: post → permit_pair ws a b.
Proof.
  intros Hall Hmon pre. revert l q Hall Hmon.
  induction pre as [|x pre IH]; intros l q Hall Hmon a b post ->; simpl in *.
  - destruct (permit_next ws q a) as [q1|] eqn:H1; [|done].
    destruct (permit_next ws q1 b) as [q2|] eqn:H2; [|done].
    apply Forall_cons in Hall as [Ha Hall]. apply Forall_cons in Hall as [Hb _].
    by eapply permit_next_pair.
  - destruct (permit_next ws q x) as [q1|] eqn:H1; [|done].
    apply Forall_cons in Hall as [_ Hall]. by eapply IH.
Qed.

Lemma by_provider_all ws tr : Forall (λ o, obs_of o = Some ws) (by_provider ws tr).
Proof. apply Forall_forall. intros o Ho. by apply list_elem_of_filter in Ho as [? _]. Qed.

(** C8: a worker sends from the buffer only with a permit of the
    controller's limiter.  In every run what a worker does obeys the
    permit discipline of the drain loop: a write from the buffer comes
    directly after a call to the limiter that granted a permit (never
    first, and never after a denial); a denied call is followed by a sleep
    of one minute, and a sleep by another call to the limiter.  The call
    is [Allow] on the limiter of the controller: it grants iff a token is
    left, takes that token, and the worker goes to its write if granted
    and to its sleep if denied.  A worker that sleeps asks again with its
    next step, whatever the limiter says; and once the limiter has been
    refilled the call after the sleep is granted and the event in hand is
    written. *)
Theorem drain_write_needs_permit acts ws :
  let s := run acts main in
  let tr := trace s in
  permit_ok ws tr = true ∧
  (∀ msg ok post, by_provider ws tr ≠ ObsWrite ws Draining msg ok :: post) ∧
  (∀ pre a b post, by_provider ws tr = pre ++ a :: b :: post →
     (∀ msg ok, b = ObsWrite ws Draining msg ok → a = ObsAllow ws true) ∧
     (a = ObsAllow ws false → b = ObsSleep ws Minute) ∧
     (∀ d, a = ObsSleep ws d → ∃ granted, b = ObsAllow ws granted)) ∧
  (∀ w i e rd wr_ok,
     exited s = false → worker ws s = Some w → pc w = WPermit i e →
     let s' := step (ActWorker ws rd wr_ok) s in
     let granted := bool_decide (0 < tokens (ratelimiter s))%Z in
     (Allow (ratelimiter s)).2 = granted ∧
     ratelimiter s' = (Allow (ratelimiter s)).1 ∧
     tokens (ratelimiter s')
       = (if granted then tokens (ratelimiter s) - 1 else tokens (ratelimiter s))%Z ∧
     trace s' = tr ++ [ObsAllow ws granted] ∧
     worker ws s' = Some (at_pc w (if granted then WSend i e else WSleep i e))) ∧
  (∀ w i e rd1 wr1 rd2 wr2,
     exited s = false → worker ws s = Some w → pc w = WSleep i e →
     let s' := run [ActWorker ws rd1 wr1; ActWorker ws rd2 wr2] s in
     let granted := (Allow (ratelimiter s)).2 in
     ratelimiter s' = (Allow (ratelimiter s)).1 ∧
     trace s' = tr ++ [ObsSleep ws Minute; ObsAllow ws granted] ∧
     worker ws s' = Some (at_pc w (if granted then WSend i e else WSleep i e))) ∧
  (∀ w i e rd1 wr1 rd2 wr2 rd3 wr_ok,
     exited s = false → worker ws s = Some w → pc w = WSleep i e →
     let s' := run [ActTick; ActWorker ws rd1 wr1; ActWorker ws rd2 wr2;
                    ActWorker ws rd3 wr_ok] s in
     trace s' = tr ++ [ObsSleep ws Minute; ObsAllow ws true;
                       ObsWrite ws Draining (Marshal e) wr_ok] ∧
     tokens (ratelimiter s') = 99%Z).
Proof.
  intros s tr.
  destruct (ri_permit _ (reach_inv_run acts) ws) as (q & Hq & _). fold s tr in Hq.
  split; [|split; [|split; [|split; [|split]]]].
  - unfold permit_ok. rewrite Hq. by apply bool_decide_eq_true_2.
  - intros msg ok post Heq.
    rewrite (monitor_by_provider _ ws) in Hq by apply permit_next_skip.
    rewrite Heq in Hq. simpl in Hq. unfold permit_next in Hq.
    simpl in Hq. by rewrite decide_True in Hq.
  - intros pre a b post Heq.
    rewrite (monitor_by_provider _ ws) in Hq by apply permit_next_skip.
    eapply permit_monitor_pairs; [apply by_provider_all|exact Hq|exact Heq].
  - intros w i e rd wr_ok Hex Hw Hpc s' granted.
    destruct (permit_step s ws w i e rd wr_ok Hex Hw Hpc) as (Hrl & Htr & Hw' & _).
    fold s' in Hrl, Htr, Hw'.
    assert ((Allow (ratelimiter s)).2 = granted ∧
            tokens (Allow (ratelimiter s)).1
              = (if granted then tokens (ratelimiter s) - 1
                 else tokens (ratelimiter s))%Z) as [Hg Htok].
    { unfold granted. destruct (decide (0 < tokens (ratelimiter s))%Z) as [Hpos|Hneg].
      - rewrite Allow_granted, bool_decide_eq_true_2 by done. done.
      - rewrite Allow_denied, bool_decide_eq_false_2 by lia. done. }
    rewrite Hg in Htr, Hw'. rewrite Hrl. done.
  - intros w i e rd1 wr1 rd2 wr2 Hex Hw Hpc s' granted.
    destruct (sleep_step s ws w i e rd1 wr1 Hex Hw Hpc) as (Hrl1 & Htr1 & Hw1 & _ & Hex1).
    set (s1 := step (ActWorker ws rd1 wr1) s) in *.
    destruct (permit_step s1 ws _ i e rd2 wr2 Hex1 Hw1 eq_refl) as (Hrl2 & Htr2 & Hw2 & _).
    change s' with (step (ActWorker ws rd2 wr2) s1).
    rewrite Hrl1 in Hrl2, Htr2, Hw2. rewrite Hrl2, Htr2, Hw2, Htr1, <- app_assoc.
    split; [done|]. split; [done|]. by destruct w.
  - intros w i e rd1 wr1 rd2 wr2 rd3 wr_ok Hex Hw Hpc s'.
    destruct (tick_step s ws Hex) as (Hrl0 & Htr0 & Hw0 & _ & Hex0).
    set (s0 := step ActTick s) in *. rewrite Hw in Hw0.
    destruct (sleep_step s0 ws w i e rd1 wr1 Hex0 Hw0 Hpc) as (Hrl1 & Htr1 & Hw1 & _ & Hex1).
    set (s1 := step (ActWorker ws rd1 wr1) s0) in *.
    destruct (permit_step s1 ws _ i e rd2 wr2 Hex1 Hw1 eq_refl)
      as (Hrl2 & Htr2 & Hw2 & _ & Hex2).
    set (s2 := step (ActWorker ws rd2 wr2) s1) in *.
    assert (Allow (ratelimiter s1)
            = ({| tokens := 99; maxAllowed := 100; ticker := ticker (ratelimiter s) |}, true))
      as HA.
    { rewrite Hrl1, Hrl0. unfold refill. rewrite Allow_granted; simpl.
      - unfold s. by rewrite limiter_max_run.
      - unfold s. by rewrite limiter_max_run. }
    rewrite HA in Hrl2, Htr2, Hw2. simpl in Hrl2, Htr2, Hw2.
    destruct (send_step s2 ws _ i e rd3 wr_ok Hex2 Hw2 eq_refl) as (Hrl3 & Htr3 & _).
    change s' with (step (ActWorker ws rd3 wr_ok) s2).
    rewrite Hrl3, Htr3, Hrl2, Htr2, Htr1, Htr0, <- !app_assoc. done.
Qed.

Lemma monitor_app {Q} (next : Q → Obs → option Q) q l1 l2 :
  monitor next q (l1 ++ l2) = monitor next q l1 ≫= λ q', monitor next q' l2.
Proof.
  revert q. induction l1 as [|o l1 IH]; intros q; simpl; [done|].
  destruct (next q o); [apply IH|done].
Qed.

Lemma relay_next_pair ws q a b q1 q2 :
  obs_of a = Some ws → obs_of b = Some ws →
  relay_next ws q a = Some q1 → relay_next ws q1 b = Some q2 →
  (∀ conn msg, a = ObsRelayRead ws conn msg → ∃ ok, b = ObsWrite ws PassThrough msg ok) ∧
  (∀ msg ok, b = ObsWrite ws PassThrough msg ok → ∃ conn, a = ObsRelayRead ws conn msg).
Proof.
  intros Ha Hb. unfold relay_next. rewrite !decide_True by done.
  intros H1 H2.
  destruct a as [| | ?[]|?|?[]?[]| | |], q; simplify_eq/=.
  all: destruct b as [| | ?[]|? ?|?[]?[]| | |]; simplify_eq/=.
  all: repeat case_decide; simplify_eq/=.
  all: split; intros; simplify_eq/=; eauto.
Qed.

Lemma relay_monitor_pairs ws l q q' :
  Forall (λ o, obs_of o = Some ws) l →
  monitor (relay_next ws) q l = Some q' →
  ∀ pre a b post, l = pre ++ a :: b :: post →
  (∀ conn msg, a = ObsRelayRead ws conn msg → ∃ ok, b = ObsWrite ws PassThrough msg ok) ∧
  (∀ msg ok, b = ObsWrite ws PassThrough msg ok → ∃ conn, a = ObsRelayRead ws conn msg).
Proof.
  intros Hall Hmon pre. revert l q Hall Hmon.
  induction pre as [|x pre IH]; intros l q Hall Hmon a b post ->; simpl in *.
  - destruct (relay_next ws q a) as [q1|] eqn:H1; [|done].
    destruct (relay_next ws q1 b) as [q2|] eqn:H2; [|done].
    apply Forall_cons in Hall as [Ha Hall]. apply Forall_cons in Hall as [Hb _].
    by eapply relay_next_pair.
  - destruct (relay_next ws q x) as [q1|] eqn:H1; [|done].
    apply Forall_cons in Hall as [_ Hall]. by eapply IH.
Qed.

(** Past the drain loop the automaton takes relay observations only. *)
Lemma relay_monitor_after ws l q q' :
  Forall (λ o, obs_of o = Some ws) l → q ≠ RBefore →
  monitor (relay_next ws) q l = Some q' → Forall relay_obs l.
Proof.
  revert q. induction l as [|o l IH]; intros q Hall Hq Hmon; [done|].
  apply Forall_cons in Hall as [Ho Hall]. simpl in Hmon.
  destruct (relay_next ws q o) as [q1|] eqn:H1; [|done].
  unfold relay_next in H1. rewrite decide_True in H1 by done.
  assert (relay_obs o ∧ q1 ≠ RBefore) as [Hobs Hq1].
  { destruct q, o as [| | ?[]|?|?[]?[]| | |]; simplify_eq/=; try done.
    all: repeat case_decide; simplify_eq/=; done. }
  constructor; [done|]. by eapply IH.
Qed.

(** Two steps of a worker that is at the read of its last loop when a
    frame comes in. *)
Lemma relay_two_steps s ws w conn msg rd wr0 wr_ok :
  exited s = false → worker ws s = Some w → pc w = WRelayRead →
  appConn s = Some conn →
  let s' := run [ActWorker ws (Some msg) wr0; ActWorker ws rd wr_ok] s in
  trace s' = trace s ++ [ObsRelayRead ws conn msg; ObsWrite ws PassThrough msg wr_ok] ∧
  events s' = events s ∧ ratelimiter s' = ratelimiter s ∧
  worker ws s' = Some (at_pc w (if wr_ok then WRelayRead else WReturned)).
Proof.
  intros Hex Hw Hpc Hconn s'. subst s'. simpl.
  assert (step (ActWorker ws (Some msg) wr0) s
          = set_worker ws (Some (at_pc w (WRelayWrite msg)))
              (emit (ObsRelayRead ws conn msg) s)) as ->.
  { unfold step. rewrite Hex. unfold worker_step. by rewrite Hw, Hpc, Hconn. }
  unfold step. destruct ws; simpl in *; rewrite Hex; unfold worker_step; simpl.
  all: rewrite <- app_assoc; simpl; by destruct wr_ok.
Qed.

(** C5: in every run, once a worker has left its drain loop it only
    relays.  Each frame it reads from the ingress connection is directly
    followed by a write of that same frame, as read, on its own provider
    connection, and it writes nothing else there; it never calls the
    limiter or sleeps again, and relaying leaves the buffer and the
    limiter untouched. *)
Theorem relay_forwards_verbatim acts ws :
  let s := run acts main in
  relay_ok ws (trace s) = true ∧
  (∀ pre a b post, by_provider ws (trace s) = pre ++ a :: b :: post →
     (∀ conn msg, a = ObsRelayRead ws conn msg →
        ∃ ok, b = ObsWrite ws PassThrough msg ok) ∧
     (∀ msg ok, b = ObsWrite ws PassThrough msg ok →
        ∃ conn, a = ObsRelayRead ws conn msg)) ∧
  (∀ pre post, by_provider ws (trace s) = pre ++ ObsFinished ws :: post →
     Forall relay_obs post) ∧
  (∀ w conn msg rd wr0 wr_ok,
     exited s = false → worker ws s = Some w → pc w = WRelayRead →
     appConn s = Some conn →
     let s' := run [ActWorker ws (Some msg) wr0; ActWorker ws rd wr_ok] s in
     trace s' = trace s ++ [ObsRelayRead ws conn msg; ObsWrite ws PassThrough msg wr_ok] ∧
     events s' = events s ∧ ratelimiter s' = ratelimiter s).
Proof.
  intros s.
  destruct (ri_relay _ (reach_inv_run acts) ws) as (q & Hq & _). fold s in Hq.
  split; [|split; [|split]].
  - unfold relay_ok. rewrite Hq. by apply bool_decide_eq_true_2.
  - intros pre a b post Heq.
    rewrite (monitor_by_provider _ ws) in Hq by apply relay_next_skip.
    eapply relay_monitor_pairs; [apply by_provider_all|exact Hq|exact Heq].
  - intros pre post Heq.
    rewrite (monitor_by_provider _ ws) in Hq by apply relay_next_skip.
    pose proof (by_provider_all ws (trace s)) as Hall.
    rewrite Heq in Hq, Hall. rewrite monitor_app in Hq.
    apply Forall_app in Hall as [_ Hall].
    apply Forall_cons in Hall as [Hfin Hall].
    destruct (monitor (relay_next ws) RBefore pre) as [q0|]; [|done].
    simpl in Hq. destruct (relay_next ws q0 (ObsFinished ws)) as [q1|] eqn:H1; [|done].
    eapply (relay_monitor_after ws post q1); [done| |exact Hq].
    unfold relay_next in H1. rewrite decide_True in H1 by done.
    destruct q0; simplify_eq/=. done.
  - intros w conn msg rd wr0 wr_ok Hex Hw Hpc Hconn s'.
    destruct (relay_two_steps s ws w conn msg rd wr0 wr_ok Hex Hw Hpc Hconn)
      as (Ht & He & Hr & _).
    done.
Qed.

End ClaimsDisciplines.

Lemma drain_write_needs_permit_witness :
  let s := run Scenario.limiter_denied main in
  let s' := run [ActTick; ActWorker Main None true; ActWorker Main None true;
                 ActWorker Main None true] s in
  (exited s = false ∧
   worker Main s = Some (mkWorker "Main" true (WSleep 100 Scenario.event1)) ∧
   tokens (ratelimiter s) = 0%Z ∧
   last (trace s) = Some (ObsAllow Main false)) ∧
  trace s' = trace s ++ [ObsSleep Main Minute; ObsAllow Main true;
                         ObsWrite Main Draining (Marshal Scenario.event1) true] ∧
  tokens (ratelimiter s') = 99%Z.
Proof.
  assert (exited (run Scenario.limiter_denied main) = false) as Hex
    by (vm_compute; reflexivity).
  assert (worker Main (run Scenario.limiter_denied main)
          = Some (mkWorker "Main" true (WSleep 100 Scenario.event1))) as Hw
    by (vm_compute; reflexivity).
  split; [repeat split; try done; vm_compute; reflexivity|].
  exact (proj2 (proj2 (proj2 (proj2 (proj2
           (drain_write_needs_permit Scenario.limiter_denied Main)))))
           _ 100 Scenario.event1 None true None true None true Hex Hw eq_refl).
Defined.

Lemma relay_forwards_verbatim_witness :
  let s := run Scenario.backup_relaying main in
  let s' := run [ActWorker Backup (Some "ping") true; ActWorker Backup None true] s in
  (exited s = false ∧ worker Backup s = Some (mkWorker "Backup" false WRelayRead) ∧
   appConn s = Some 0) ∧
  trace s' = trace s ++ [ObsRelayRead Backup 0 "ping";
                         ObsWrite Backup PassThrough "ping" true] ∧
  events s' = events s ∧ ratelimiter s' = ratelimiter s.
Proof.
  assert (exited (run Scenario.backup_relaying main) = false) as H1
    by (vm_compute; reflexivity).
  assert (worker Backup (run Scenario.backup_relaying main)
          = Some (mkWorker "Backup" false WRelayRead)) as H2 by (vm_compute; reflexivity).
  assert (appConn (run Scenario.backup_relaying main) = Some 0) as H3
    by (vm_compute; reflexivity).
  split; [by repeat split|].
  exact (proj2 (proj2 (proj2 (relay_forwards_verbatim Scenario.backup_relaying Backup)))
           _ 0 "ping" None true true H1 H2 eq_refl H3).
Defined.

Section ClaimsFailover.
Context `{JSON}.

Lemma elem_signals ws tr : ObsSignal ws ∈ tr → ws ∈ signals tr.
Proof.
  intros Hin. unfold signals. apply list_elem_of_omap.
  by exists (ObsSignal ws).
Qed.

Lemma elem_by_provider ws o tr : o ∈ tr → obs_of o = Some ws → o ∈ by_provider ws tr.
Proof. intros Hin Ho. by apply list_elem_of_filter. Qed.

Lemma signals_of_run acts :
  signals (trace (run acts main)) = [] ∨ signals (trace (run acts main)) = [Main].
Proof.
  destruct (ri_failover _ (reach_inv_run acts)) as [Hnone Honce _ _ _].
  destruct (setupBackup (run acts main)) eqn:Hs.
  - left. by apply Hnone.
  - right. apply Honce. congruence.
  - right. apply Honce. congruence.
Qed.

(** C4: in every run the failover signal is sent at most once, only by the
    worker started with [triggerBackup = true] (the main one), and only
    after that worker has left its drain loop; and before the signal the
    backup provider is not dialled and its worker writes nothing: whatever
    the backup side does comes after the signal. *)
Theorem failover_signal_once acts :
  let s := run acts main in
  length (signals (trace s)) ≤ 1 ∧
  (∀ ws, ObsSignal ws ∈ trace s →
         ws = Main ∧ ∃ w, worker ws s = Some w ∧ triggerBackup w = true) ∧
  preceded (λ o, o = ObsFinished Main) is_signal (trace s) ∧
  preceded is_signal (λ o, obs_of o = Some Backup) (trace s).
Proof.
  intros s. pose proof (reach_inv_run acts) as Hinv. fold s in Hinv.
  destruct (ri_failover _ Hinv) as [_ _ _ Hfin Hback].
  split; [|split; [|by split]].
  - destruct (signals_of_run acts) as [Hs|Hs]; fold s in Hs; rewrite Hs; simpl; lia.
  - intros ws Hin.
    assert (ws = Main) as ->.
    { apply elem_signals in Hin.
      destruct (signals_of_run acts) as [Hs|Hs]; fold s in Hs; rewrite Hs in Hin.
      - by apply elem_of_nil in Hin.
      - by apply list_elem_of_singleton in Hin. }
    split; [done|].
    destruct (worker Main s) as [w|] eqn:Hw.
    + exists w. split; [done|].
      by destruct (wr_main_some _ (ri_wiring _ Hinv) w Hw) as (_ & _ & ?).
    + apply (elem_by_provider Main) in Hin; [|done].
      rewrite (dr_none _ _ (ri_drain _ Hinv Main) Hw) in Hin.
      by apply elem_of_nil in Hin.
Qed.

Lemma returned_step ws a s w :
  wiring_inv s → worker ws s = Some w → pc w = WReturned →
  worker ws (step a s) = Some w ∧
  by_provider ws (trace (step a s)) = by_provider ws (trace s).
Proof.
  intros Hwire Hw Hpc.
  step_cases a s; [done|..]; step_unfold.
  all: try destruct ws0.
  all: repeat case_match; simplify_eq/=.
  all: destruct ws; simpl in *; simplify_eq/=.
  all: rewrite ?by_provider_snoc, ?app_nil_r; try done.
  all: try (destruct (wr_main_some _ Hwire _ Hw) as (? & _); congruence).
  all: try (pose proof (wiring_backup_done _ _ Hwire Hw); congruence).
Qed.

Lemma returned_run ws acts s w :
  reach_inv s → worker ws s = Some w → pc w = WReturned →
  worker ws (run acts s) = Some w ∧
  by_provider ws (trace (run acts s)) = by_provider ws (trace s).
Proof.
  revert s. induction acts as [|a acts IH]; intros s Hinv Hw Hpc; simpl; [done|].
  destruct (returned_step ws a s w (ri_wiring _ Hinv) Hw Hpc) as [Hw' Htr'].
  destruct (IH (step a s) (reach_inv_step a s Hinv) Hw' Hpc) as [Hw'' Htr''].
  split; [done|]. by rewrite Htr''.
Qed.

Lemma drain_obs_not_relay o : drain_obs o → ¬ relay_obs o.
Proof. destruct o as [| | | |?[]?[]| | |]; simpl; tauto. Qed.

(** C7: when a write of the drain loop fails, the worker is gone for the
    rest of the run: the failed write is the last thing it does on its
    connection (no further write, no retry, no dial), it never sends the
    failover signal, and it never relays. *)
Theorem write_error_terminates acts ws w i e rd acts' :
  let s := run acts main in
  exited s = false → worker ws s = Some w → pc w = WSend i e →
  let s' := run (ActWorker ws rd false :: acts') s in
  worker ws s' = Some (at_pc w WReturned) ∧
  by_provider ws (trace s')
    = by_provider ws (trace s) ++ [ObsWrite ws Draining (Marshal e) false] ∧
  Forall drain_obs (by_provider ws (trace s)) ∧
  (ObsSignal ws ∉ trace s') ∧
  (∀ o, o ∈ by_provider ws (trace s') → ¬ relay_obs o).
Proof.
  intros s Hex Hw Hpc s'. pose proof (reach_inv_run acts) as Hinv. fold s in Hinv.
  pose proof (dr_only _ _ (ri_drain _ Hinv ws) w i Hw ltac:(by rewrite Hpc)) as Honly.
  set (s1 := step (ActWorker ws rd false) s).
  assert (worker ws s1 = Some (at_pc w WReturned) ∧
          by_provider ws (trace s1)
            = by_provider ws (trace s) ++ [ObsWrite ws Draining (Marshal e) false])
    as [Hw1 Htr1].
  { unfold s1, step. rewrite Hex. unfold worker_step. rewrite Hw, Hpc.
    destruct ws; simpl; rewrite by_provider_snoc;
      by rewrite by_provider_singleton_same. }
  destruct (returned_run ws acts' s1 _ (reach_inv_step _ _ Hinv) Hw1 eq_refl)
    as [Hw' Htr'].
  change s' with (run acts' s1).
  assert (∀ o, o ∈ by_provider ws (trace (run acts' s1)) → ¬ relay_obs o) as Hno.
  { intros o. rewrite Htr', Htr1, elem_of_app, list_elem_of_singleton.
    intros [Ho| ->]; [|simpl; tauto].
    apply drain_obs_not_relay. by eapply Forall_forall in Honly. }
  repeat split; try done.
  - by rewrite Htr', Htr1.
  - intros Hin. apply (elem_by_provider ws) in Hin; [|done].
    by apply Hno in Hin.
Qed.


End ClaimsFailover.



Lemma failover_signal_once_witness :
  let s := run Scenario.backup_dialled main in
  ObsSignal Main ∈ trace s ∧
  Main = Main ∧ ∃ w, worker Main s = Some w ∧ triggerBackup w = true.
Proof.
  assert (ObsSignal Main ∈ trace (run Scenario.backup_dialled main)) as Hin.
  { apply (bool_decide_unpack (ObsSignal Main ∈ trace (run Scenario.backup_dialled main))).
    vm_compute. exact I. }
  split; [exact Hin|].
  exact (proj1 (proj2 (failover_signal_once Scenario.backup_dialled)) Main Hin).
Defined.

Lemma write_error_terminates_witness :
  let s := run (Scenario.main_drained ++ [ActReader 0 (Some Scenario.frame1);
                                          ActReader 0 None]
                ++ Scenario.worker_steps Main 3) main in
  let s' := run (ActWorker Main None false :: Scenario.worker_steps Main 3) s in
  (exited s = false ∧
   worker Main s = Some (mkWorker "Main" true (WSend 1 Scenario.event1))) ∧
  worker Main s' = Some (mkWorker "Main" true WReturned) ∧
  ObsSignal Main ∉ trace s'.
Proof.
  set (acts := Scenario.main_drained ++ [ActReader 0 (Some Scenario.frame1);
                                         ActReader 0 None]
               ++ Scenario.worker_steps Main 3).
  assert (exited (run acts main) = false) as Hex by (vm_compute; reflexivity).
  assert (worker Main (run acts main)
          = Some (mkWorker "Main" true (WSend 1 Scenario.event1))) as Hw
    by (vm_compute; reflexivity).
  destruct (write_error_terminates acts Main _ 1 Scenario.event1 None
              (Scenario.worker_steps Main 3) Hex Hw eq_refl) as (H1 & _ & _ & H4 & _).
  split; [by split|]. split; [exact H1|exact H4].
Defined.

Section ClaimsJson.
Context `{JSON}.

(** C10: a frame is dropped only when [json.Unmarshal] returns an error.
    Whatever [json.Unmarshal] is, a reader at its read appends, with its
    next step, the event of any frame that unmarshals without error, and a
    frame with an error leaves the buffer as it is.  With [encoding/json]
    (the model [GoJson]), [null], the empty object, an object with [id]
    only or [payload] only, and an object with a further field all
    unmarshal without error, the fields that are absent being the empty
    string; so does an object with a field nested as deep as the decoder
    allows, and one level deeper is a syntax error. *)
Theorem unmarshalled_frames_are_appended acts k conn :
  let s := run acts main in
  exited s = false → readers s !! k = Some RRead → appConn s = Some conn →
  (∀ msg e, Unmarshal msg zeroEvent = (e, None) →
     events (run [ActReader k (Some msg); ActReader k None] s) = events s ++ [e]) ∧
  (∀ msg e j, Unmarshal msg zeroEvent = (e, Some j) →
     events (run [ActReader k (Some msg)] s) = events s ∧
     readers (run [ActReader k (Some msg)] s) = readers s) ∧
  GoJson.unmarshal "null" zeroEvent = (zeroEvent, None) ∧
  GoJson.unmarshal "{}" zeroEvent = (zeroEvent, None) ∧
  GoJson.unmarshal Scenario.only_id zeroEvent = (mkEvent "7" "", None) ∧
  GoJson.unmarshal Scenario.only_payload zeroEvent = (mkEvent "" "x", None) ∧
  GoJson.unmarshal Scenario.with_extra zeroEvent = (mkEvent "7" "x", None) ∧
  GoJson.unmarshal (Scenario.nested 9999) zeroEvent = (mkEvent "deep" "", None) ∧
  GoJson.unmarshal (Scenario.nested 10000) zeroEvent = (zeroEvent, Some SyntaxError).
Proof.
  intros s Hex Hk Hconn. split; [|split].
  - intros msg e Hu.
    by destruct (reader_takes_frame s k conn msg e Hex Hk Hconn (decode_ok _ _ Hu))
      as (? & _).
  - intros msg e j Hu.
    by destruct (reader_drops_frame s k conn msg Hex Hk Hconn (decode_err _ _ _ Hu))
      as (? & ? & _).
  - repeat split; vm_compute; reflexivity.
Qed.

End ClaimsJson.

Lemma unmarshalled_frames_are_appended_witness :
  let s := run [ActUpgrade true] main in
  (exited s = false ∧ readers s !! 0 = Some RRead ∧ appConn s = Some 0 ∧
   Unmarshal "null" zeroEvent = (zeroEvent, None) ∧
   Unmarshal Scenario.only_id zeroEvent = (mkEvent "7" "", None)) ∧
  events (run [ActReader 0 (Some "null"); ActReader 0 None] s) = events s ++ [zeroEvent] ∧
  events (run [ActReader 0 (Some Scenario.only_id); ActReader 0 None] s)
    = events s ++ [mkEvent "7" ""].
Proof.
  assert (exited (run [ActUpgrade true] main) = false) as H1 by reflexivity.
  assert (readers (run [ActUpgrade true] main) !! 0 = Some RRead) as H2 by reflexivity.
  assert (appConn (run [ActUpgrade true] main) = Some 0) as H3 by reflexivity.
  assert (Unmarshal "null" zeroEvent = (zeroEvent, None)) as H4
    by (vm_compute; reflexivity).
  assert (Unmarshal Scenario.only_id zeroEvent = (mkEvent "7" "", None)) as H5
    by (vm_compute; reflexivity).
  split; [by repeat split|]. split.
  - exact (proj1 (unmarshalled_frames_are_appended [ActUpgrade true] 0 0 H1 H2 H3)
             "null" zeroEvent H4).
  - exact (proj1 (unmarshalled_frames_are_appended [ActUpgrade true] 0 0 H1 H2 H3)
             Scenario.only_id _ H5).
Defined.

(** * Further properties of the controller *)

Section Buffer.
Context `{JSON}.

Lemma events_prefix_step a s : events s `prefix_of` events (step a s).
Proof.
  step_cases a s; [done|..]; step_unfold.
  all: try destruct ws.
  all: repeat case_match; simplify_eq/=; try done.
  by apply prefix_app_r.
Qed.

(** X1: the buffer only grows at its end: whatever a run does next, from any
    state, what is in the buffer stays where it is ([c.events] is written
    by the [append] of [readEventsFromApp] only). *)
Theorem buffer_append_only acts s :
  events s `prefix_of` events (run acts s) ∧
  length (events s) ≤ length (events (run acts s)).
Proof.
  assert (events s `prefix_of` events (run acts s)) as Hpre.
  { revert s. induction acts as [|a acts IH]; intros s; simpl; [done|].
    etrans; [apply (events_prefix_step a)|apply IH]. }
  split; [done|]. by apply prefix_length.
Qed.

(** A worker that has left its drain loop stays out of it and never writes
    from the buffer again. *)
Lemma past_loop_step ws a s w :
  wiring_inv s → worker ws s = Some w → loop_index (pc w) = None →
  (∃ w', worker ws (step a s) = Some w' ∧ loop_index (pc w') = None) ∧
  drained ws (trace (step a s)) = drained ws (trace s).
Proof.
  intros Hwire Hw Hpc.
  step_cases a s; [eauto|..]; step_unfold.
  all: try destruct ws0.
  all: repeat case_match; simplify_eq/=.
  all: destruct ws; simpl in *; simplify_eq/=.
  all: rewrite ?drained_snoc, ?app_nil_r; simpl; rewrite ?app_nil_r.
  all: try (split; [eexists; split; [done|]; simpl; done|done]).
  all: try (destruct (wr_main_some _ Hwire _ Hw) as (? & _); congruence).
  all: try (pose proof (wiring_backup_done _ _ Hwire Hw); congruence).
  all: match goal with Hx : pc _ = _ |- _ => rewrite Hx in Hpc; done end.
Qed.

(** X2: once a worker has left its drain loop it never sends from the buffer
    again, whatever is appended later: the events that arrive after its
    last loop test are not drained by it. *)
Theorem no_drain_after_loop acts ws w acts' :
  let s := run acts main in
  worker ws s = Some w → loop_index (pc w) = None →
  drained ws (trace (run acts' s)) = drained ws (trace s).
Proof.
  intros s Hw Hpc. pose proof (reach_inv_run acts) as Hinv. fold s in Hinv.
  clearbody s. clear acts. revert s w Hw Hpc Hinv.
  induction acts' as [|a acts' IH]; intros s w Hw Hpc Hinv; simpl; [done|].
  destruct (past_loop_step ws a s w (ri_wiring _ Hinv) Hw Hpc)
    as [(w' & Hw' & Hpc') Hdr].
  rewrite (IH (step a s) w' Hw' Hpc' (reach_inv_step a s Hinv)). done.
Qed.

End Buffer.

Lemma no_drain_after_loop_witness :
  let s := run (Scenario.main_drained ++ Scenario.worker_steps Main 1) main in
  let s' := run [ActReader 0 (Some "{}"); ActReader 0 None;
                 ActWorker Main None true; ActWorker Main None true] s in
  worker Main s = Some (mkWorker "Main" true WTrigger) ∧
  events s' = [Scenario.event1; zeroEvent] ∧
  drained Main (trace s') = drained Main (trace s).
Proof.
  assert (worker Main (run (Scenario.main_drained ++ Scenario.worker_steps Main 1) main)
          = Some (mkWorker "Main" true WTrigger)) as Hw by (vm_compute; reflexivity).
  split; [exact Hw|]. split; [vm_compute; reflexivity|].
  exact (no_drain_after_loop _ Main _ _ Hw eq_refl).
Defined.

Section Progress.
Context `{JSON}.

(** X3: with a token for each event still to send and no write error, a
    worker that runs from its loop test sends the rest of the buffer, in
    order, and is back at the test with nothing left: four steps an
    event. *)
Theorem drain_completes n s ws w i :
  exited s = false → worker ws s = Some w → pc w = WLoop i →
  i + n = length (events s) → (Z.of_nat n ≤ tokens (ratelimiter s))%Z →
  let s' := run (repeat (ActWorker ws None true) (4 * n)) s in
  worker ws s' = Some (at_pc w (WLoop (length (events s)))) ∧
  events s' = events s ∧ exited s' = false ∧
  drained ws (trace s') = drained ws (trace s) ++ map Marshal (drop i (events s)).
Proof. apply drain_run. Qed.

End Progress.

Lemma drain_completes_witness :
  let s := run [ActUpgrade true; ActReader 0 (Some Scenario.frame1); ActReader 0 None;
                ActDialMain true] main in
  let s' := run (repeat (ActWorker Main None true) (4 * 1)) s in
  (exited s = false ∧ worker Main s = Some (mkWorker "Main" true (WLoop 0)) ∧
   0 + 1 = length (events s) ∧ (Z.of_nat 1 ≤ tokens (ratelimiter s))%Z) ∧
  worker Main s' = Some (mkWorker "Main" true (WLoop 1)) ∧
  drained Main (trace s') = drained Main (trace s) ++ map Marshal (drop 0 (events s)).
Proof.
  set (acts := [ActUpgrade true; ActReader 0 (Some Scenario.frame1); ActReader 0 None;
                ActDialMain true]).
  assert (exited (run acts main) = false) as H1 by (vm_compute; reflexivity).
  assert (worker Main (run acts main) = Some (mkWorker "Main" true (WLoop 0))) as H2
    by (vm_compute; reflexivity).
  assert (0 + 1 = length (events (run acts main))) as H3 by (vm_compute; reflexivity).
  assert (Z.of_nat 1 ≤ tokens (ratelimiter (run acts main)))%Z as H4
    by (vm_compute; discriminate).
  destruct (drain_completes 1 (run acts main) Main _ 0 H1 H2 eq_refl H3 H4)
    as (Hw & _ & _ & Hd).
  split; [by repeat split|]. split; [exact Hw|exact Hd].
Defined.

Section Rendezvous.
Context `{JSON}.

Lemma waiting_inv_step a s : wiring_inv s → waiting_inv s → waiting_inv (step a s).
Proof.
  unfold waiting_inv. intros Hwire Hwait.
  step_cases a s; [done|..]; step_unfold.
  all: try destruct ws.
  all: repeat case_match; simplify_eq/=; try done.
  all: try (intros; apply Hwait; by (done || congruence)).
  all: try match goal with Hx : pc _ = _ |- _ => rewrite Hx in Hwait end.
  all: try (intros; by apply Hwait).
  all: try (exfalso;
            match goal with Hx : workerBackup _ = Some ?w, Hp : pc ?w = WTrigger |- _ =>
              by destruct (wr_backup_some _ Hwire w Hx) as (?&?&?) end).
  all: try (exfalso;
            match goal with Hx : workerMain _ = Some ?w, Hs : setupMain _ = SDial |- _ =>
              destruct (wr_main_some _ Hwire w Hx) as (?&?&?); congruence end).
  all: try (intros Hb; specialize (Hwait Hb); congruence).
  all: exfalso; specialize (Hwait eq_refl); congruence.
Qed.

Lemma waiting_inv_run acts : waiting_inv (run acts main).
Proof.
  assert (wiring_inv (run acts main) ∧ waiting_inv (run acts main)) as [_ ?]; [|done].
  apply (run_invariant (λ s, wiring_inv s ∧ waiting_inv s)).
  - split; [apply wiring_inv_main|done].
  - intros a s [Hw Hq]. split; [by apply wiring_inv_step|by apply waiting_inv_step].
Qed.

(** X4: the send on [startBackup] never blocks in the wiring of [main]: when
    the main worker comes to it, the second goroutine of [main] is at its
    receive, so the worker's next step sends the signal, releases that
    goroutine to dial the backup, and enters the relay loop. *)
Theorem rendezvous_completes acts w rd wr_ok :
  let s := run acts main in
  exited s = false → worker Main s = Some w → pc w = WTrigger →
  let s' := step (ActWorker Main rd wr_ok) s in
  setupBackup s = SWait ∧
  worker Main s' = Some (at_pc w WRelayRead) ∧ setupBackup s' = SDial ∧
  trace s' = trace s ++ [ObsSignal Main].
Proof.
  intros s Hex Hw Hpc s'.
  pose proof (waiting_inv_run acts) as Hwait. fold s in Hwait.
  unfold waiting_inv in Hwait. simpl in Hw. rewrite Hw, Hpc in Hwait.
  specialize (Hwait eq_refl). split; [done|].
  unfold s', step. rewrite Hex. unfold worker_step. simpl.
  by rewrite Hw, Hpc, Hwait.
Qed.

End Rendezvous.

Lemma rendezvous_completes_witness :
  let s := run (Scenario.main_drained ++ Scenario.worker_steps Main 1) main in
  let s' := step (ActWorker Main None true) s in
  (exited s = false ∧ worker Main s = Some (mkWorker "Main" true WTrigger)) ∧
  setupBackup s = SWait ∧
  worker Main s' = Some (mkWorker "Main" true WRelayRead) ∧ setupBackup s' = SDial.
Proof.
  set (acts := Scenario.main_drained ++ Scenario.worker_steps Main 1).
  assert (exited (run acts main) = false) as H1 by (vm_compute; reflexivity).
  assert (worker Main (run acts main) = Some (mkWorker "Main" true WTrigger)) as H2
    by (vm_compute; reflexivity).
  destruct (rendezvous_completes acts _ None true H1 H2 eq_refl) as (Ha & Hb & Hc & _).
  split; [by split|]. split; [exact Ha|]. split; [exact Hb|exact Hc].
Defined.

Section Budget.
Context `{JSON}.

Lemma grants_by_snoc ws tr o : grants_by ws (tr ++ [o]) = grants_by ws tr + grants_by ws [o].
Proof. unfold grants_by. by rewrite omap_app, length_app. Qed.

Lemma ticks_snoc acts a :
  ticks (acts ++ [a]) = ticks acts + (if decide (a = ActTick) then 1 else 0).
Proof.
  unfold ticks. rewrite filter_app, length_app. f_equal.
  rewrite filter_cons, filter_nil. by case_decide.
Qed.

Lemma budget_inv_main : budget_inv main.
Proof. split; [by simpl|]. intros []; simpl; lia. Qed.

(** One step: the invariant is kept, and permits granted plus tokens left
    grow by a refill at most. *)
Lemma budget_inv_step a s :
  wiring_inv s → (∀ ws, drain_inv ws s) → budget_inv s →
  budget_inv (step a s) ∧
  (Z.of_nat (grants_by Main (trace (step a s)) + grants_by Backup (trace (step a s)))
   + tokens (ratelimiter (step a s))
   ≤ Z.of_nat (grants_by Main (trace s) + grants_by Backup (trace s))
     + tokens (ratelimiter s) + (if decide (a = ActTick) then 100 else 0))%Z.
Proof.
  intros Hwire Hdrain [[Htok Hmax] Hwork].
  pose proof (dr_none _ _ (Hdrain Main)) as HnM.
  pose proof (dr_none _ _ (Hdrain Backup)) as HnB.
  step_cases a s; [split; [done|case_decide; lia]|..]; step_unfold.
  all: try destruct ws.
  all: repeat case_match; simplify_eq/=.
  all: pose proof (Hwork Main) as HM; pose proof (Hwork Backup) as HB; simpl in HM, HB.
  all: try match goal with Hx : Allow ?rl = (_, _) |- _ =>
         destruct (decide (0 < tokens rl)%Z);
         [rewrite Allow_granted in Hx by done | rewrite Allow_denied in Hx by lia];
         simplify_eq/=
       end.
  all: try match goal with Hx : workerMain _ = Some _ |- _ => rewrite Hx in HM end.
  all: try match goal with Hx : workerBackup _ = Some _ |- _ => rewrite Hx in HB end.
  all: repeat match goal with Hx : pc _ = _ |- _ => rewrite Hx in HM end.
  all: repeat match goal with Hx : pc _ = _ |- _ => rewrite Hx in HB end.
  all: try match goal with Hx : setupMain _ = SDial |- _ =>
         pose proof (wr_main_none _ Hwire Hx) as HwN; rewrite HwN in HM;
         pose proof (drained_nil _ _ (HnM HwN)) end.
  all: try match goal with Hx : setupBackup _ = SDial |- _ =>
         pose proof (wr_backup_none _ Hwire ltac:(congruence)) as HwN; rewrite HwN in HB;
         pose proof (drained_nil _ _ (HnB HwN)) end.
  all: simpl in *.
  all: split; [split; [simpl; lia|intros []; simpl]|].
  all: rewrite ?grants_by_snoc, ?drained_snoc, ?length_app; simpl.
  all: repeat match goal with |- context [grants_by ?w [?o]] =>
         let v := eval vm_compute in (grants_by w [o]) in
         change (grants_by w [o]) with v
       end.
  all: try apply (Hwork Main).
  all: try apply (Hwork Backup).
  all: repeat case_decide; simplify_eq; lia.
Qed.

(** X5: the limiter bounds what leaves the buffer: in every run the permits
    granted to the two workers together, and so the events they have sent
    from the buffer, number at most 100 for the start and 100 more for
    each tick of the limiter. *)
Theorem buffer_sends_per_interval acts :
  let tr := trace (run acts main) in
  grants_by Main tr + grants_by Backup tr ≤ 100 * (1 + ticks acts) ∧
  length (drained Main tr) + length (drained Backup tr) ≤ 100 * (1 + ticks acts).
Proof.
  intros tr. subst tr.
  assert (budget_inv (run acts main) ∧
          (Z.of_nat (grants_by Main (trace (run acts main))
                     + grants_by Backup (trace (run acts main)))
           + tokens (ratelimiter (run acts main))
           ≤ 100 * (1 + Z.of_nat (ticks acts)))%Z) as [[[Htok _] Hwork] Hsum].
  { induction acts as [|a acts IH] using rev_ind.
    - split; [apply budget_inv_main|]. vm_compute. discriminate.
    - destruct IH as [Hinv Hsum]. rewrite run_snoc, ticks_snoc.
      pose proof (reach_inv_run acts) as Hr.
      destruct (budget_inv_step a _ (ri_wiring _ Hr) (ri_drain _ Hr) Hinv) as [Hinv' Hsum'].
      split; [done|]. case_decide; lia. }
  pose proof (Hwork Main). pose proof (Hwork Backup). lia.
Qed.

End Budget.

Section ConnectionTheorems.
Context `{JSON}.

(** X6: with a single app connection (one reader) the buffer, followed by the
    event the reader is about to append, is the sequence of the events of
    the frames that decoded, in the order in which they were read. *)
Theorem single_reader_keeps_order acts :
  let s := run acts main in
  length (readers s) ≤ 1 →
  events s ++ pending (readers s) = omap decode (ingress (trace s)).
Proof. intros s. apply (ci_order _ (conn_inv_run acts)). Qed.


(** X8: a worker that comes to its relay loop while no app has ever connected
    ([c.appConn] is nil) brings the process down with its read: nothing
    happens after it, and nothing was ever buffered or sent. *)
Theorem relay_without_app_crashes acts ws w rd wr_ok acts' :
  let s := run acts main in
  exited s = false → appConn s = None → worker ws s = Some w → pc w = WRelayRead →
  let s' := run (ActWorker ws rd wr_ok :: acts') s in
  exited s' = true ∧ trace s' = trace s ∧ events s' = [] ∧
  drained ws (trace s') = [].
Proof.
  intros s Hex Hnil Hw Hpc s'.
  destruct (conn_inv_run acts) as [Hn _ Hempty _]. fold s in Hn, Hempty.
  pose proof (Hempty (Hn Hnil)) as Hev.
  assert (step (ActWorker ws rd wr_ok) s = crash s) as Hstep.
  { unfold step. rewrite Hex. unfold worker_step. by rewrite Hw, Hpc, Hnil. }
  assert (s' = crash s) as ->.
  { unfold s'. simpl. rewrite Hstep. by apply run_exited. }
  simpl. repeat split; try done.
  pose proof (dr_sent _ _ (ri_drain _ (reach_inv_run acts) ws)) as Hsent.
  fold s in Hsent. rewrite Hsent, Hev. by rewrite take_nil.
Qed.

End ConnectionTheorems.

Lemma single_reader_keeps_order_witness :
  let s := run Scenario.main_drained main in
  length (readers s) ≤ 1 ∧
  events s ++ pending (readers s) = omap decode (ingress (trace s)).
Proof.
  assert (length (readers (run Scenario.main_drained main)) ≤ 1) as Hlen
    by (vm_compute; lia).
  split; [exact Hlen|]. exact (single_reader_keeps_order Scenario.main_drained Hlen).
Defined.


Lemma relay_without_app_crashes_witness :
  let s := run Scenario.no_app main in
  let s' := run [ActWorker Main (Some "ping") true; ActUpgrade true] s in
  (exited s = false ∧ appConn s = None ∧
   worker Main s = Some (mkWorker "Main" true WRelayRead)) ∧
  exited s' = true ∧ trace s' = trace s.
Proof.
  assert (exited (run Scenario.no_app main) = false) as H1 by (vm_compute; reflexivity).
  assert (appConn (run Scenario.no_app main) = None) as H2 by (vm_compute; reflexivity).
  assert (worker Main (run Scenario.no_app main)
          = Some (mkWorker "Main" true WRelayRead)) as H3 by (vm_compute; reflexivity).
  destruct (relay_without_app_crashes Scenario.no_app Main _ (Some "ping") true
              [ActUpgrade true] H1 H2 H3 eq_refl) as (Ha & Hb & _).
  split; [by repeat split|]. split; [exact Ha|exact Hb].
Defined.

Section Starvation.
Context `{JSON}.

Lemma exhausted_step a s ws :
  (tokens (ratelimiter s) ≤ 0)%Z → a ≠ ActTick →
  grants_by ws (trace (step a s)) = grants_by ws (trace s) ∧
  tokens (ratelimiter (step a s)) = tokens (ratelimiter s).
Proof.
  intros Htok Ha.
  step_cases a s; [done|..]; step_unfold.
  all: try destruct ws0.
  all: try match goal with |- context [Allow ?rl] => idtac end.
  all: repeat case_match; simplify_eq/=; try done.
  all: try match goal with Hx : Allow ?rl = (_, _) |- _ =>
         rewrite Allow_denied in Hx by done; simplify_eq/= end.
  all: rewrite ?grants_by_snoc; simpl.
  all: destruct ws; unfold grants_by; simpl; split; try done; lia.
Qed.

(** X9: an exhausted limiter grants nothing until its next tick, whoever
    asks: over any actions without a tick, from any state with no token
    left, no permit is granted and the bucket stays as it is. *)
Theorem exhausted_limiter_grants_nothing acts s ws :
  (tokens (ratelimiter s) ≤ 0)%Z → ticks acts = 0 →
  grants_by ws (trace (run acts s)) = grants_by ws (trace s) ∧
  tokens (ratelimiter (run acts s)) = tokens (ratelimiter s).
Proof.
  revert s. induction acts as [|a acts IH]; intros s Htok Hticks; simpl; [done|].
  assert (a ≠ ActTick ∧ ticks acts = 0) as [Ha Hrest].
  { unfold ticks in *. rewrite filter_cons in Hticks.
    case_decide; simpl in Hticks; [lia|done]. }
  destruct (exhausted_step a s ws Htok Ha) as [Hg Ht].
  destruct (IH (step a s) ltac:(by rewrite Ht) Hrest) as [Hg' Ht'].
  split; congruence.
Qed.

Lemma dial_inv_step a s : dial_inv s → dial_inv (step a s).
Proof.
  unfold dial_inv, dials. intros [HM HB].
  step_cases a s; [done|..]; step_unfold.
  all: try destruct ws.
  all: repeat case_match; simplify_eq/=.
  all: rewrite ?filter_app, ?length_app.
  all: rewrite ?filter_cons_True, ?filter_cons_False, ?filter_nil by done; simpl.
  all: try done.
  all: rewrite ?HM, ?HB.
  all: split; unfold dialled; repeat case_match; first [congruence|lia].
Qed.

(** X10: no provider is dialled twice in a run: each of the two goroutines of
    [main] dials once, and a lost connection is not dialled again. *)
Theorem dialled_at_most_once acts p :
  dials p (trace (run acts main)) ≤ 1.
Proof.
  assert (dial_inv (run acts main)) as [HM HB].
  { apply run_invariant; [done|intros; by apply dial_inv_step]. }
  destruct p; [rewrite HM|rewrite HB]; unfold dialled; case_match; lia.
Qed.

End Starvation.

Lemma exhausted_limiter_grants_nothing_witness :
  let s := run Scenario.limiter_exhausted main in
  let s' := run (Scenario.worker_steps Main 6) s in
  ((tokens (ratelimiter s) ≤ 0)%Z ∧ ticks (Scenario.worker_steps Main 6) = 0) ∧
  grants_by Main (trace s') = grants_by Main (trace s) ∧
  tokens (ratelimiter s') = tokens (ratelimiter s).
Proof.
  assert (tokens (ratelimiter (run Scenario.limiter_exhausted main)) ≤ 0)%Z as H1
    by (vm_compute; discriminate).
  assert (ticks (Scenario.worker_steps Main 6) = 0) as H2 by (vm_compute; reflexivity).
  split; [by split|].
  exact (exhausted_limiter_grants_nothing _ _ Main H1 H2).
Defined.

Section Exits.
Context `{JSON}.

(** X11: a failed upgrade, a failed dial and the return of
    [http.ListenAndServe] end the process: from then on no goroutine does
    anything, whatever is scheduled, and the state is the one the process
    ended in. *)
Theorem fatal_error_stops_process a s acts' :
  fatal a s = true →
  let s' := run (a :: acts') s in
  exited s' = true ∧ trace s' = trace s ∧ events s' = events s ∧
  ∀ acts'', run acts'' s' = s'.
Proof.
  intros Hf s'.
  assert (exited (step a s) = true ∧ trace (step a s) = trace s ∧
          events (step a s) = events s) as (Hex' & Htr & Hev).
  { clear s'. step_cases a s; [done|..]; step_unfold; simpl in Hf; try done.
    all: repeat case_match; simplify_eq/=; try done.
    all: by destruct dial_ok. }
  assert (s' = step a s) as -> by (unfold s'; simpl; by apply run_exited).
  repeat split; try done. intros acts''. by apply run_exited.
Qed.

Lemma reader_free_step a s :
  reader_free [a] = true → events (step a s) = events s.
Proof.
  intros Ha.
  step_cases a s; [done|..]; step_unfold; simpl in Ha; try done.
  all: try destruct ws.
  all: repeat case_match; simplify_eq/=; done.
Qed.

(** X12: only the [readEventsFromApp] goroutines write the buffer: the workers
    (their drain loop and their relay loop, whose frames are forwarded and
    not recorded), the dials, the ticks and the upgrades leave it as it
    is. *)
Theorem workers_never_buffer acts s :
  reader_free acts = true → events (run acts s) = events s.
Proof.
  revert s. induction acts as [|a acts IH]; intros s Hfree; simpl; [done|].
  unfold reader_free in Hfree. simpl in Hfree.
  apply andb_true_iff in Hfree as [Ha Hacts].
  rewrite (IH _ Hacts). apply reader_free_step. unfold reader_free. simpl.
  by rewrite Ha.
Qed.

(** X13: the relay loop ends at its first error, on either side: when the read
    from the app fails, or when the write to the provider fails, the
    worker returns, and in the rest of the run it reads, writes and
    signals nothing: there is no reconnect and no retry. *)
Theorem relay_error_ends_worker acts ws w rd wr_ok acts' :
  let s := run acts main in
  exited s = false → worker ws s = Some w →
  (pc w = WRelayRead ∧ appConn s ≠ None ∧ rd = None) ∨
  (∃ msg, pc w = WRelayWrite msg ∧ wr_ok = false) →
  let s1 := step (ActWorker ws rd wr_ok) s in
  worker ws s1 = Some (at_pc w WReturned) ∧
  worker ws (run acts' s1) = Some (at_pc w WReturned) ∧
  by_provider ws (trace (run acts' s1)) = by_provider ws (trace s1).
Proof.
  intros s Hex Hw Hcase s1.
  assert (reach_inv s1) as Hinv1.
  { apply reach_inv_step, reach_inv_run. }
  assert (worker ws s1 = Some (at_pc w WReturned)) as Hw1.
  { unfold s1, step. rewrite Hex. unfold worker_step. rewrite Hw.
    destruct Hcase as [(Hpc & Hconn & ->)|(msg & Hpc & ->)]; rewrite Hpc.
    - destruct (appConn s); [|done]. by destruct ws.
    - by destruct ws. }
  split; [done|]. by apply returned_run.
Qed.

End Exits.

Lemma fatal_error_stops_process_witness :
  let s := run (Scenario.main_drained ++ Scenario.worker_steps Main 2) main in
  let s' := run [ActDialBackup false; ActWorker Main (Some "ping") true] s in
  fatal (ActDialBackup false) s = true ∧ exited s' = true ∧ trace s' = trace s.
Proof.
  assert (fatal (ActDialBackup false)
            (run (Scenario.main_drained ++ Scenario.worker_steps Main 2) main) = true)
    as Hf by (vm_compute; reflexivity).
  destruct (fatal_error_stops_process _ _ [ActWorker Main (Some "ping") true] Hf)
    as (Ha & Hb & _).
  split; [exact Hf|]. split; [exact Ha|exact Hb].
Defined.

Lemma workers_never_buffer_witness :
  let s := run Scenario.both_drained main in
  let acts := [ActWorker Backup (Some "ping") true; ActWorker Backup None true;
               ActTick; ActWorker Main (Some "pong") false] in
  reader_free acts = true ∧ events (run acts s) = events s.
Proof.
  assert (reader_free [ActWorker Backup (Some "ping") true; ActWorker Backup None true;
                       ActTick; ActWorker Main (Some "pong") false] = true) as Hfree
    by (vm_compute; reflexivity).
  split; [exact Hfree|].
  exact (workers_never_buffer _ (run Scenario.both_drained main) Hfree).
Defined.

Lemma relay_error_ends_worker_witness :
  let s := run Scenario.backup_relaying main in
  let s1 := step (ActWorker Backup None true) s in
  let acts' := [ActWorker Backup (Some "ping") true; ActWorker Backup None true] in
  (exited s = false ∧ worker Backup s = Some (mkWorker "Backup" false WRelayRead) ∧
   appConn s ≠ None) ∧
  worker Backup (run acts' s1) = Some (mkWorker "Backup" false WReturned) ∧
  by_provider Backup (trace (run acts' s1)) = by_provider Backup (trace s1).
Proof.
  assert (exited (run Scenario.backup_relaying main) = false) as H1
    by (vm_compute; reflexivity).
  assert (worker Backup (run Scenario.backup_relaying main)
          = Some (mkWorker "Backup" false WRelayRead)) as H2 by (vm_compute; reflexivity).
  assert (appConn (run Scenario.backup_relaying main) ≠ None) as H3
    by (vm_compute; discriminate).
  destruct (relay_error_ends_worker Scenario.backup_relaying Backup _ None true
              [ActWorker Backup (Some "ping") true; ActWorker Backup None true]
              H1 H2 (or_introl (conj eq_refl (conj H3 eq_refl)))) as (_ & Ha & Hb).
  split; [by repeat split|]. split; [exact Ha|exact Hb].
Defined.
